(** * util/parser.c: option-token matcher, numeric extraction, wildcards

    A shallow embedding of [src/util/parser.c] (the mount-option parser
    that nvme-cli shares with the Linux kernel) and the properties its
    specification states about it.

    Conventions of the embedding.
    - A C string is the list of its bytes before the terminating NUL;
      reading [*p] at the end of the list reads the NUL.
    - A [char *] into the subject is an offset into the subject buffer;
      a [const char *] that only walks forward (the pattern, both
      cursors of the wildcard matcher) is the suffix it points at.
    - [int] is 32 bits, [long] and [size_t] are 64 bits (LP64), kept as
      [Z] with their conversions written out.
    - The [args] array is the function from index to cell, defined at
      every index, so that a write past [MAX_OPT_ARGS] would be visible. *)

From Stdlib Require Import ZArith List Ascii String Lia Bool Arith.
From stdpp Require Import base list strings.

Local Open Scope Z_scope.

Abbreviation cstring := (list ascii).

(** String literals for the examples. *)
Definition cs (s : string) : cstring := list_ascii_of_string s.

(** ** Machine integers *)

Module Cint.

Definition INT_MIN : Z := - 2 ^ 31.
Definition INT_MAX : Z := 2 ^ 31 - 1.
Definition LONG_MIN : Z := - 2 ^ 63.
Definition LONG_MAX : Z := 2 ^ 63 - 1.
Definition ULONG_MAX : Z := 2 ^ 64 - 1.
Definition SIZE_MAX : Z := 2 ^ 64 - 1.

(** Conversion to [int]: reduction modulo 2^32 into [INT_MIN, INT_MAX]. *)
Definition to_int (x : Z) : Z := (x + 2 ^ 31) mod 2 ^ 32 - 2 ^ 31.

(** Conversion to [size_t] / [unsigned long]. *)
Definition to_size_t (x : Z) : Z := x mod 2 ^ 64.

(** errno values of <errno.h> on Linux. *)
Definition ENOMEM : Z := 12.
Definition EINVAL : Z := 22.
Definition ERANGE : Z := 34.

End Cint.

(** ** The C library calls the parser makes

    [isdigit], [strchr], [strcmp], [strncmp], [strtol], [strtoul] and
    [memcpy] are not code of this repository; they are written here
    from ISO C 7.4 and 7.22.1.4, in the "C" locale. *)

Module Libc.
Import Cint.

Definition NUL : ascii := "000"%char.

Definition code (c : ascii) : Z := Z.of_N (N_of_ascii c).

(** [*p] for a read-only cursor: the NUL at the end of the string. *)
Definition deref (p : cstring) : ascii := hd NUL p.

Definition isdigit (c : ascii) : bool := (48 <=? code c) && (code c <=? 57).

Definition isspace (c : ascii) : bool :=
  (code c =? 32) || ((9 <=? code c) && (code c <=? 13)).

(** [strchr(p, c)], as the offset of the first [c], for [c] not NUL. *)
Fixpoint strchr (p : cstring) (c : ascii) : option nat :=
  match p with
  | [] => None
  | d :: p' => if Ascii.eqb d c then Some O else S <$> strchr p' c
  end.

(** [strcmp(a, b) == 0]. *)
Definition strcmp_eq (a b : cstring) : bool := bool_decide (a = b).

(** [strncmp(a, b, n) == 0]. *)
Definition strncmp_eq (a b : cstring) (n : nat) : bool :=
  bool_decide (take n a = take n b).

(** Value of a digit or letter in the subject sequence of [strtol]. *)
Definition digit_of (c : ascii) : option Z :=
  let n := code c in
  if (48 <=? n) && (n <=? 57) then Some (n - 48)
  else if (97 <=? n) && (n <=? 122) then Some (n - 87)
  else if (65 <=? n) && (n <=? 90) then Some (n - 55)
  else None.

(** The longest run of digits of [base], accumulated without a bound:
    its value and its length. *)
Fixpoint scan_digits (base : Z) (l : cstring) (acc : Z) : Z * nat :=
  match l with
  | [] => (acc, O)
  | c :: l' =>
      match digit_of c with
      | Some d =>
          if d <? base
          then let '(v, n) := scan_digits base l' (acc * base + d) in (v, S n)
          else (acc, O)
      | None => (acc, O)
      end
  end.

Fixpoint skip_space (l : cstring) : nat :=
  match l with
  | c :: l' => if isspace c then S (skip_space l') else O
  | [] => O
  end.

Definition is_hex_digit (c : ascii) : bool :=
  match digit_of c with
  | Some d => d <? 16
  | None => false
  end.

(** The subject sequence: white space, an optional sign, an optional
    [0x] when the base is 0 or 16, then digits.  The result is the
    sign, the magnitude and the number of characters up to [*endptr];
    no digit means no conversion, [*endptr == nptr]. *)
Definition strto_scan (nptr : cstring) (base : Z) : bool * Z * nat :=
  let ws := skip_space nptr in
  let l := drop ws nptr in
  let '(neg, sg) :=
    if Ascii.eqb (deref l) "-" then (true, 1%nat)
    else if Ascii.eqb (deref l) "+" then (false, 1%nat)
    else (false, 0%nat) in
  let l := drop sg l in
  let has_0x :=
    ((base =? 0) || (base =? 16))
    && Ascii.eqb (deref l) "0"
    && (Ascii.eqb (deref (drop 1 l)) "x" || Ascii.eqb (deref (drop 1 l)) "X")
    && is_hex_digit (deref (drop 2 l)) in
  let '(b, pre) :=
    if has_0x then (16, 2%nat)
    else if base =? 0
         then (if Ascii.eqb (deref l) "0" then 8 else 10, 0%nat)
         else (base, 0%nat) in
  let '(v, n) := scan_digits b (drop pre l) 0 in
  match n with
  | O => (false, 0, O)
  | S _ => (neg, v, (ws + sg + pre + n)%nat)
  end.

(** [strtol]: the value, clamped to [long], and the offset of [*endptr]. *)
Definition strtol (nptr : cstring) (base : Z) : Z * nat :=
  let '(neg, v, n) := strto_scan nptr base in
  (if neg then Z.max (- v) LONG_MIN else Z.min v LONG_MAX, n).

(** [strtoul]: [ULONG_MAX] on overflow, negation modulo 2^64. *)
Definition strtoul (nptr : cstring) (base : Z) : Z * nat :=
  let '(neg, v, n) := strto_scan nptr base in
  (if ULONG_MAX <? v then ULONG_MAX
   else if neg then to_size_t (- v) else v, n).

(** A buffer is the list of its bytes, NULs included. *)
Abbreviation bytes := (list ascii).

(** [memcpy(dest, src, n)]: the first [n] bytes of [dest] replaced. *)
Definition memcpy (dest src : bytes) (n : nat) : bytes :=
  take n src ++ drop n dest.

(** The C string a buffer holds: its bytes before the first NUL. *)
Fixpoint cstr_of (b : bytes) : cstring :=
  match b with
  | [] => []
  | c :: b' => if Ascii.eqb c NUL then [] else c :: cstr_of b'
  end.

(** [malloc]: a block of the requested size with arbitrary contents, or
    the null pointer. *)
Definition allocator := Z -> option bytes.

Definition allocator_ok (malloc : allocator) : Prop :=
  forall n blk, malloc n = Some blk -> Z.of_nat (length blk) = n.

(** Every character is a digit of [base]. *)
Definition digits_of_base (base : Z) (ds : cstring) : bool :=
  forallb (fun c => match digit_of c with
                    | Some d => d <? base
                    | None => false
                    end) ds.

(** The number a run of digits writes in [base]. *)
Definition digits_value (base : Z) (ds : cstring) : Z :=
  fold_left (fun acc c => acc * base + default 0 (digit_of c)) ds 0.

End Libc.

(** ** match_wildcard (parser.c, lines 208-245) *)

Module Wildcard.

(** The five locals of the loop.  [wc_str] and [wc_pattern] are the two
    parameters, which the code reuses as the backtrack anchor. *)
Record wc_state := WcState {
  wc_s : cstring;
  wc_p : cstring;
  wc_str : cstring;
  wc_pattern : cstring;
  wc_star : bool
}.

Inductive wc_outcome :=
| wc_return (b : bool)
| wc_next (st : wc_state).

(** Lines 242-244, after the loop: one star is stepped over, and the
    result is whether the pattern cursor is at the NUL. *)
Definition wc_exit (p : cstring) : bool :=
  let p' := match p with
            | c :: q => if Ascii.eqb c "*" then q else p
            | [] => p
            end in
  match p' with
  | [] => true
  | _ :: _ => false
  end.

(** Lines 232-236, a literal that does not match [*s]. *)
Definition wc_mismatch (st : wc_state) : wc_outcome :=
  if wc_star st then
    let str' := tail (wc_str st) in
    wc_next (WcState str' (wc_pattern st) str' (wc_pattern st) true)
  else wc_return false.

(** One evaluation of the loop condition and, when it holds, of the
    body (lines 214-240). *)
Definition wc_step (st : wc_state) : wc_outcome :=
  match wc_s st with
  | [] => wc_return (wc_exit (wc_p st))
  | c :: s' =>
      match wc_p st with
      | [] => wc_mismatch st
      | d :: p' =>
          if Ascii.eqb d "?" then
            wc_next (WcState s' p' (wc_str st) (wc_pattern st) (wc_star st))
          else if Ascii.eqb d "*" then
            match p' with
            | [] => wc_return true
            | _ :: _ => wc_next (WcState (wc_s st) p' (wc_s st) p' true)
            end
          else if Ascii.eqb c d then
            wc_next (WcState s' p' (wc_str st) (wc_pattern st) (wc_star st))
          else wc_mismatch st
      end
  end.

Fixpoint wc_run (fuel : nat) (st : wc_state) : option bool :=
  match fuel with
  | O => None
  | S fuel' =>
      match wc_step st with
      | wc_return b => Some b
      | wc_next st' => wc_run fuel' st'
      end
  end.

Definition wc_init (pattern str : cstring) : wc_state :=
  WcState str pattern str pattern false.

(** Lexicographic rank of a state: the anchor in the pattern, then the
    anchor in the subject, then the subject cursor; [n] bounds the
    length of the subject. *)
Definition wc_rank (n : nat) (st : wc_state) : nat :=
  (length (wc_pattern st) * (S n * S n) + length (wc_str st) * S n
   + length (wc_s st))%nat.

Definition wc_fuel (pattern str : cstring) : nat :=
  S (wc_rank (length str) (wc_init pattern str)).

(** [None] stands for running out of fuel, which [wc_run_total] excludes. *)
Definition match_wildcard (pattern str : cstring) : bool :=
  match wc_run (wc_fuel pattern str) (wc_init pattern str) with
  | Some b => b
  | None => false
  end.

(** Cursors never pass their anchors. *)
Definition wc_bounded (n : nat) (st : wc_state) : Prop :=
  (length (wc_s st) <= length (wc_str st) <= n
   /\ length (wc_p st) <= length (wc_pattern st))%nat.

(** The contract in the words of the specification: literal bytes match
    themselves, [?] one character, [*] any run of characters, and the
    whole subject is matched against the whole pattern. *)
Inductive glob : cstring -> cstring -> Prop :=
| glob_nil : glob [] []
| glob_any p s c : glob p s -> glob ("?"%char :: p) (c :: s)
| glob_star p s1 s2 : glob p s2 -> glob ("*"%char :: p) (s1 ++ s2)
| glob_lit p s c :
    c <> "?"%char -> c <> "*"%char -> glob p s -> glob (c :: p) (c :: s).

(** The pattern ends in two stars. *)
Definition ends_star_star (p : cstring) : Prop :=
  exists q, p = q ++ ["*"%char; "*"%char].

(** What a state of the loop still has to decide: before any star, that
    the rest of the pattern matches the rest of the subject; after one,
    that the pattern behind the star matches the subject from the
    anchor or from some later position. *)
Definition wc_sem (st : wc_state) : Prop :=
  if wc_star st
  then exists k, glob (wc_pattern st) (drop k (wc_str st))
  else glob (wc_p st) (wc_s st).

(** After a star, the cursors are a partial match from the anchors: the
    pattern between anchor and cursor takes exactly the subject between
    anchor and cursor. *)
Definition wc_inv (st : wc_state) : Prop :=
  wc_star st = true ->
  exists u, wc_str st = u ++ wc_s st
    /\ (glob (wc_p st) (wc_s st) -> glob (wc_pattern st) (wc_str st))
    /\ (forall t, glob (wc_pattern st) t ->
          exists t1 t2, t = t1 ++ t2 /\ length t1 = length u
                        /\ glob (wc_p st) t2).

Definition wc_tidy (st : wc_state) : Prop :=
  ~ ends_star_star (wc_p st) /\ ~ ends_star_star (wc_pattern st).

(** A pattern of literal bytes only: neither [?] nor [*]. *)
Definition wc_literal (p : cstring) : Prop :=
  ("?"%char ∉ p) /\ ("*"%char ∉ p).

End Wildcard.

(** ** match_one, match_token, match_number, match_strlcpy, match_strdup *)

Module Parser.
Import Cint Libc.

(** Modelled from the spec: [substring_t], declared in parser.h, which
    is not among the sources.  A substring reference is a start and an
    exclusive end into the subject; the two pointers are kept as offsets
    from the first byte of the subject. *)
Record substring_t := Substring { from : nat; to : nat }.

(** Modelled from the spec: [struct match_token], declared in parser.h,
    which is not among the sources.  A table entry is a token-id and a
    pattern; [None] is the null pattern of the sentinel. *)
Record match_token_t := MatchToken { token : Z; pattern : option cstring }.

(** The cells [args[0]], [args[1]], ... as the memory behind the
    pointer [args], whatever the length of the caller's array. *)
Definition args_t := nat -> substring_t.

Definition set_from (args : args_t) (i : nat) (v : nat) : args_t :=
  fun j => if decide (j = i) then Substring v (to (args j)) else args j.

Definition set_to (args : args_t) (i : nat) (v : nat) : args_t :=
  fun j => if decide (j = i) then Substring (from (args j)) v else args j.

(** The characters a substring spans in the buffer it points into. *)
Definition substring_text (buf : cstring) (s : substring_t) : cstring :=
  take (to s - from s) (drop (from s) buf).

Definition substring_valid (buf : cstring) (s : substring_t) : Prop :=
  (from s <= to s <= length buf)%nat.

(** Two arrays that hold the same spans below [n]. *)
Definition agree (n : nat) (a b : args_t) : Prop :=
  forall i, (i < n)%nat -> a i = b i.

(** An array nothing has been recorded in. *)
Definition blank : args_t := fun _ => Substring 0 0.

(** The pattern mini-language without conversions: every [%] is part of
    an escape [%%]. *)
Fixpoint escapes_only (p : cstring) : bool :=
  match p with
  | [] => true
  | c :: q =>
      if Ascii.eqb c "%" then
        match q with
        | d :: q' => Ascii.eqb d "%" && escapes_only q'
        | [] => false
        end
      else escapes_only q
  end.

(** The text such a pattern stands for: each [%%] is one [%]. *)
Fixpoint unescape (p : cstring) : cstring :=
  match p with
  | [] => []
  | c :: q =>
      if Ascii.eqb c "%" then
        match q with
        | _ :: q' => c :: unescape q'
        | [] => [c]
        end
      else c :: unescape q
  end.

(** The number a run of decimal digits writes. *)
Definition decimal (digits : cstring) : Z :=
  fold_left (fun acc c => acc * 10 + (code c - 48)) digits 0.

(** The value of [len] at line 57 for a conversion whose field width is
    written [digits]: -1 without a width, else what [strtoul] returns,
    converted to [int]. *)
Definition field_width (digits : cstring) : Z :=
  match digits with
  | [] => -1
  | _ :: _ => to_int (Z.min (decimal digits) ULONG_MAX)
  end.

Section MatchOne.

(** [MAX_OPT_ARGS] is a macro of parser.h, which is not among the
    sources: every definition takes it as a parameter. *)
Variable MAX_OPT_ARGS : nat.

(** What one turn of the [while (1)] loop of [match_one] does: it
    returns, or goes round again with new [s], [p], [args], [argc]. *)
Inductive m1_outcome :=
| m1_return (r : bool) (args : args_t) (argc : nat)
| m1_continue (s : nat) (p : cstring) (args : args_t) (argc : nat).

(** Lines 83-86 and 90-91: a number was scanned at [s] and [consumed]
    characters belong to it. *)
Definition m1_num (s : nat) (p : cstring) (args : args_t) (argc : nat)
    (consumed : nat) : m1_outcome :=
  let args := set_to args argc (s + consumed) in
  if bool_decide (to (args argc) = from (args argc))
  then m1_return false args argc
  else m1_continue (to (args argc)) p args (S argc).

(** Lines 57-91: the capacity check and the [switch] on the conversion
    character; [len] is the field width, -1 when there is none. *)
Definition m1_conversion (subj : cstring) (s : nat) (p : cstring) (len : Z)
    (args : args_t) (argc : nat) : m1_outcome :=
  if bool_decide (MAX_OPT_ARGS <= argc)%nat then m1_return false args argc
  else
    let args := set_from args argc s in
    let rest := drop s subj in
    let c := deref p in
    let p := drop 1 p in
    if Ascii.eqb c "s" then
      let str_len := Z.of_nat (length rest) in
      if str_len =? 0 then m1_return false args argc
      else
        let len :=
          if (len =? -1) || (str_len <? to_size_t len)
          then to_int str_len else len in
        let args := set_to args argc (Z.to_nat (Z.of_nat s + len)) in
        m1_continue (to (args argc)) p args (S argc)
    else if Ascii.eqb c "d" then m1_num s p args argc (snd (strtol rest 0))
    else if Ascii.eqb c "u" then m1_num s p args argc (snd (strtoul rest 0))
    else if Ascii.eqb c "o" then m1_num s p args argc (snd (strtoul rest 8))
    else if Ascii.eqb c "x" then m1_num s p args argc (snd (strtoul rest 16))
    else m1_return false args argc.

(** Lines 37-55, then the conversion. *)
Definition m1_body (subj : cstring) (s : nat) (p : cstring)
    (args : args_t) (argc : nat) : m1_outcome :=
  match strchr p "%" with
  | None => m1_return (strcmp_eq p (drop s subj)) args argc
  | Some n =>
      if negb (strncmp_eq p (drop s subj) n) then m1_return false args argc
      else
        let s := (s + n)%nat in
        let p := drop (S n) p in
        if isdigit (deref p) then
          let '(v, k) := strtoul p 10 in
          m1_conversion subj s (drop k p) (to_int v) args argc
        else if Ascii.eqb (deref p) "%" then
          if Ascii.eqb (deref (drop s subj)) "%"
          then m1_continue (S s) (drop 1 p) args argc
          else m1_return false args argc
        else m1_conversion subj s p (-1) args argc
  end.

Fixpoint m1_loop (fuel : nat) (subj : cstring) (s : nat) (p : cstring)
    (args : args_t) (argc : nat) : option (bool * args_t * nat) :=
  match fuel with
  | O => None
  | S fuel' =>
      match m1_body subj s p args argc with
      | m1_return r args' argc' => Some (r, args', argc')
      | m1_continue s' p' args' argc' => m1_loop fuel' subj s' p' args' argc'
      end
  end.

(** [match_one] with the final [argc] next to its result.  Each turn of
    the loop steps over a [%] of the pattern, so [S (length p)] turns
    are enough ([m1_loop_total]); [None] stands for running out. *)
Definition match_one_count (s : cstring) (p : option cstring) (args : args_t)
    : option (bool * args_t * nat) :=
  match p with
  | None => Some (true, args, O)
  | Some p => m1_loop (S (length p)) s 0 p args 0
  end.

(** [match_one(s, p, args)]: the result and the array it leaves. *)
Definition match_one (s : cstring) (p : option cstring) (args : args_t)
    : bool * args_t :=
  match match_one_count s p args with
  | Some (r, args', _) => (r, args')
  | None => (false, args)
  end.

(** What a turn of the loop leaves behind, whichever way it ends. *)
Definition m1_args (o : m1_outcome) : args_t :=
  match o with
  | m1_return _ a _ => a
  | m1_continue _ _ a _ => a
  end.

Definition m1_argc (o : m1_outcome) : nat :=
  match o with
  | m1_return _ _ c => c
  | m1_continue _ _ _ c => c
  end.

(** Two outcomes that differ in the contents of [args] only. *)
Definition m1_sim (o1 o2 : m1_outcome) : Prop :=
  match o1, o2 with
  | m1_return r1 _ c1, m1_return r2 _ c2 => r1 = r2 /\ c1 = c2
  | m1_continue s1 p1 _ c1, m1_continue s2 p2 _ c2 =>
      s1 = s2 /\ p1 = p2 /\ c1 = c2
  | _, _ => False
  end.

(** Whether pattern [p] matches subject [s], and the spans of its
    placeholders in order of appearance: [match_one] on a blank array. *)
Definition m1_matches (s : cstring) (p : option cstring) : bool :=
  fst (match_one s p blank).

Definition m1_spans (s : cstring) (p : option cstring) : list substring_t :=
  match match_one_count s p blank with
  | Some (_, a, c) => map a (seq 0 c)
  | None => []
  end.

(** [match_token(s, table, args)].  The table is the run of entries
    the pointer [table] points at; running off its end (no entry
    matched, no sentinel) is the undefined read, [None]. *)
Fixpoint match_token (s : cstring) (table : list match_token_t)
    (args : args_t) : option (Z * args_t) :=
  match table with
  | [] => None
  | e :: table' =>
      let '(r, args') := match_one s (pattern e) args in
      if r then Some (token e, args') else match_token s table' args'
  end.

End MatchOne.

(** [match_number(s, result, base)]: the return value and the [int]
    that [*result] holds afterwards; [buf] is the subject buffer [s]
    points into, [result] what [*result] held before. *)
Definition match_number (malloc : allocator) (buf : cstring)
    (s : substring_t) (result : Z) (base : Z) : Z * Z :=
  let len := to_size_t (Z.of_nat (to s) - Z.of_nat (from s)) in
  match malloc (to_size_t (len + 1)) with
  | None => (- ENOMEM, result)
  | Some blk =>
      let blk := memcpy blk (drop (from s) buf) (Z.to_nat len) in
      let blk := <[Z.to_nat len := NUL]> blk in
      let '(val, endp) := strtol (cstr_of blk) base in
      if bool_decide (endp = O) then (- EINVAL, result)
      else if (val <? INT_MIN) || (INT_MAX <? val) then (- ERANGE, result)
      else (0, to_int val)
  end.

Definition match_int malloc buf s result := match_number malloc buf s result 0.
Definition match_octal malloc buf s result := match_number malloc buf s result 8.
Definition match_hex malloc buf s result := match_number malloc buf s result 16.

(** [match_strlcpy(dest, src, size)]: the return value and the bytes
    of [dest] afterwards. *)
Definition match_strlcpy (dest : bytes) (buf : cstring) (src : substring_t)
    (size : Z) : Z * bytes :=
  let ret := to_size_t (Z.of_nat (to src) - Z.of_nat (from src)) in
  if size =? 0 then (ret, dest)
  else
    let len := if size <=? ret then to_size_t (size - 1) else ret in
    let dest := memcpy dest (drop (from src) buf) (Z.to_nat len) in
    (ret, <[Z.to_nat len := NUL]> dest).

(** [match_strdup(s)]: the new block, [None] for the null pointer. *)
Definition match_strdup (malloc : allocator) (buf : cstring)
    (s : substring_t) : option bytes :=
  let sz := to_size_t (Z.of_nat (to s) - Z.of_nat (from s) + 1) in
  match malloc sz with
  | None => None
  | Some p => Some (snd (match_strlcpy p buf s sz))
  end.

(** A well-behaved allocator and the mount-option table of the
    specification, for the statements at concrete inputs. *)
Definition test_malloc : allocator :=
  fun n => if n <? 0 then None else Some (repeat "x"%char (Z.to_nat n)).

Definition mount_table : list match_token_t :=
  [ MatchToken 1 (Some (cs "ro")); MatchToken 2 (Some (cs "rw"));
    MatchToken 3 (Some (cs "uid=%u")); MatchToken (-1) None ].


(** The conversion characters of the [switch] in [match_one]. *)
Definition is_conversion (c : ascii) : bool :=
  Ascii.eqb c "s" || Ascii.eqb c "d" || Ascii.eqb c "u" || Ascii.eqb c "o"
  || Ascii.eqb c "x".

(** The first [c] cells hold spans of the subject, one after the other
    from left to right. *)
Definition spans_ordered (subj : cstring) (a : args_t) (c : nat) : Prop :=
  forall i, (i < c)%nat ->
    substring_valid subj (a i)
    /\ ((S i < c)%nat -> (to (a i) <= from (a (S i)))%nat).

(** What the loop keeps: the cursor is inside the subject and the spans
    recorded so far lie before it, in order. *)
Definition m1_inv (subj : cstring) (s : nat) (a : args_t) (c : nat) : Prop :=
  (s <= length subj)%nat
  /\ forall i, (i < c)%nat ->
       (from (a i) <= to (a i) <= s)%nat
       /\ ((S i < c)%nat -> (to (a i) <= from (a (S i)))%nat).

(** Where the scan of a pattern stands: in literal text, right behind a
    [%], or in the digits of a field width. *)
Inductive scan_mode := in_literal | after_percent | in_width.

(** The pattern holds a [%] that is neither an escape nor, after its
    optional width, followed by one of s, d, u, o, x.  The scan reads
    the pattern as the loop of [match_one] does: up to the next [%]
    (line 38), over the digits of a width (lines 48-49), over the
    second [%] of an escape (lines 50-55), over a conversion character
    (lines 61-86). *)
Fixpoint bad_conversion (m : scan_mode) (p : cstring) : bool :=
  match p with
  | [] => match m with
          | in_literal => false
          | after_percent | in_width => true
          end
  | c :: q =>
      match m with
      | in_literal =>
          if Ascii.eqb c "%" then bad_conversion after_percent q
          else bad_conversion in_literal q
      | after_percent =>
          if isdigit c then bad_conversion in_width q
          else if Ascii.eqb c "%" then bad_conversion in_literal q
          else if is_conversion c then bad_conversion in_literal q
          else true
      | in_width =>
          if isdigit c then bad_conversion in_width q
          else if is_conversion c then bad_conversion in_literal q
          else true
      end
  end.

Definition malformed (p : cstring) : bool := bad_conversion in_literal p.

(** What the scan decides behind a width. *)
Definition width_end (rest : cstring) : bool :=
  match rest with
  | [] => true
  | c :: r => if is_conversion c then bad_conversion in_literal r else true
  end.

End Parser.

(** * Properties *)

(** ** Machine integers *)

Module CintFacts.
Import Cint.

Lemma to_int_id x : INT_MIN <= x <= INT_MAX -> to_int x = x.
Proof.
  unfold to_int, INT_MIN, INT_MAX. intros H.
  rewrite Z.mod_small; lia.
Qed.

Lemma to_int_range x : INT_MIN <= to_int x <= INT_MAX.
Proof.
  unfold to_int, INT_MIN, INT_MAX.
  pose proof (Z.mod_pos_bound (x + 2 ^ 31) (2 ^ 32)). lia.
Qed.

Lemma to_size_t_id x : 0 <= x <= SIZE_MAX -> to_size_t x = x.
Proof.
  unfold to_size_t, SIZE_MAX. intros H. rewrite Z.mod_small; lia.
Qed.

Lemma to_size_t_neg x : INT_MIN <= x < 0 -> to_size_t x = x + 2 ^ 64.
Proof.
  unfold to_size_t, INT_MIN. intros H.
  symmetry. apply (Z.mod_unique_pos _ _ (-1)); lia.
Qed.

End CintFacts.

(** ** The C library *)

Module LibcFacts.
Import Cint Libc.

Lemma strchr_lt p c n : strchr p c = Some n -> (n < length p)%nat.
Proof.
  revert n. induction p as [|d p IH]; intros n; simpl; [discriminate|].
  destruct (Ascii.eqb d c); [intros [= <-]; lia|].
  destruct (strchr p c) as [m|]; simpl; [|discriminate].
  intros [= <-]. specialize (IH m eq_refl). lia.
Qed.

(** [strchr] splits the string at the first occurrence. *)
Lemma strchr_Some p c n :
  strchr p c = Some n ->
  p = take n p ++ c :: drop (S n) p /\ strchr (take n p) c = None.
Proof.
  revert n. induction p as [|d p IH]; intros n; simpl; [discriminate|].
  destruct (Ascii.eqb_spec d c) as [->|Hd]; [intros [= <-]; auto|].
  destruct (strchr p c) as [m|]; simpl; [|discriminate].
  intros [= <-]. destruct (IH m eq_refl) as [H1 H2]. simpl.
  split; [now rewrite <- H1|].
  destruct (Ascii.eqb_spec d c); [contradiction | now rewrite H2].
Qed.

Lemma strchr_None p c : strchr p c = None <-> c ∉ p.
Proof.
  induction p as [|d p IH]; simpl.
  - split; [intros _; apply not_elem_of_nil | trivial].
  - destruct (Ascii.eqb_spec d c) as [->|Hd].
    + split; [discriminate | intros H; destruct H; constructor].
    + rewrite not_elem_of_cons, <- IH.
      destruct (strchr p c); simpl; split; try discriminate; intuition congruence.
Qed.

Lemma strchr_app_first lit c q :
  strchr lit c = None -> strchr (lit ++ c :: q) c = Some (length lit).
Proof.
  induction lit as [|d lit IH]; simpl.
  - now rewrite Ascii.eqb_refl.
  - destruct (Ascii.eqb d c); [discriminate|].
    destruct (strchr lit c); [discriminate|].
    intros _. now rewrite IH.
Qed.

Lemma strcmp_eq_true a b : strcmp_eq a b = true <-> a = b.
Proof. unfold strcmp_eq. apply bool_decide_eq_true. Qed.


Lemma code_range c : 0 <= code c < 256.
Proof.
  unfold code. pose proof (N_ascii_bounded c). lia.
Qed.

Lemma isdigit_digit_of c :
  isdigit c = true -> digit_of c = Some (code c - 48) /\ 0 <= code c - 48 < 10.
Proof.
  unfold isdigit, digit_of. cbv zeta. intros H. rewrite H.
  apply andb_true_iff in H as [H1 H2]. split; [reflexivity | lia].
Qed.

Lemma not_isdigit_digit_of c :
  isdigit c = false ->
  match digit_of c with Some d => 10 <= d | None => True end.
Proof.
  unfold isdigit, digit_of. cbv zeta. intros ->.
  destruct ((97 <=? code c) && (code c <=? 122)) eqn:H1;
    [apply andb_true_iff in H1; lia|].
  destruct ((65 <=? code c) && (code c <=? 90)) eqn:H2;
    [apply andb_true_iff in H2; lia | exact I].
Qed.

Lemma isdigit_not_special c :
  isdigit c = true ->
  isspace c = false /\ Ascii.eqb c "-" = false /\ Ascii.eqb c "+" = false
  /\ Ascii.eqb c "%" = false.
Proof.
  intros H. unfold isdigit in H. apply andb_true_iff in H as [H1 H2].
  repeat split.
  - unfold isspace. lia.
  - destruct (Ascii.eqb_spec c "-") as [->|]; [vm_compute in H1; discriminate|reflexivity].
  - destruct (Ascii.eqb_spec c "+") as [->|]; [vm_compute in H1; discriminate|reflexivity].
  - destruct (Ascii.eqb_spec c "%") as [->|]; [vm_compute in H1; discriminate|reflexivity].
Qed.

Lemma scan_digits_decimal digits : forall rest acc,
  forallb isdigit digits = true -> isdigit (deref rest) = false ->
  scan_digits 10 (digits ++ rest) acc
  = (fold_left (fun a c => a * 10 + (code c - 48)) digits acc, length digits).
Proof.
  induction digits as [|d ds IH]; intros rest acc Hd Hr; simpl.
  - destruct rest as [|c rest]; [reflexivity|]. simpl in *.
    apply not_isdigit_digit_of in Hr.
    destruct (digit_of c) as [v|]; [|reflexivity].
    now destruct (Z.ltb_spec v 10); [lia|].
  - simpl in Hd. apply andb_true_iff in Hd as [Hd Hds].
    destruct (isdigit_digit_of d Hd) as [-> Hv].
    destruct (Z.ltb_spec (code d - 48) 10); [|lia].
    now rewrite IH.
Qed.

(** [strtoul] in base 10 on a run of digits followed by a non-digit. *)
Lemma strtoul_digits d ds rest :
  forallb isdigit (d :: ds) = true -> isdigit (deref rest) = false ->
  strtoul ((d :: ds) ++ rest) 10
  = (Z.min (fold_left (fun a c => a * 10 + (code c - 48)) (d :: ds) 0) ULONG_MAX,
     S (length ds)).
Proof.
  intros Hd Hr.
  pose proof (scan_digits_decimal (d :: ds) rest 0 Hd Hr) as Hscan.
  simpl in Hd. apply andb_true_iff in Hd as [Hd _].
  destruct (isdigit_not_special d Hd) as (Hsp & Hm & Hp & _).
  unfold strtoul, strto_scan. simpl skip_space. rewrite Hsp.
  simpl. rewrite Hm, Hp. simpl. simpl in Hscan. rewrite Hscan.
  f_equal. unfold ULONG_MAX.
  match goal with |- (if ?a <? ?b then _ else _) = _ => destruct (Z.ltb_spec a b) end; lia.
Qed.

End LibcFacts.

(** ** match_wildcard *)

Module WildcardFacts.
Import Wildcard.

(** *** Termination *)

Lemma wc_step_decreases n st st' :
  wc_bounded n st -> wc_step st = wc_next st' ->
  wc_bounded n st' /\ (wc_rank n st' < wc_rank n st)%nat.
Proof.
  destruct st as [s p str pattern star].
  unfold wc_bounded, wc_rank, wc_step, wc_mismatch; simpl.
  intros (Hs & Hp) Hstep.
  destruct s as [|c s']; [discriminate|].
  assert (Hback : forall st'',
    (if star then wc_next (WcState (tail str) pattern (tail str) pattern true)
     else wc_return false) = wc_next st'' ->
    ((length (wc_s st'') <= length (wc_str st'') <= n
      /\ length (wc_p st'') <= length (wc_pattern st''))
     /\ length (wc_pattern st'') * (S n * S n) + length (wc_str st'') * S n
        + length (wc_s st'')
        < length pattern * (S n * S n) + length str * S n + length (c :: s'))%nat).
  { intros st'' H. destruct star; [|discriminate].
    injection H as <-. simpl in *.
    destruct str as [|c0 str']; simpl in *; [lia|]. nia. }
  destruct p as [|d p']; [now apply Hback|].
  destruct (Ascii.eqb d "?").
  { injection Hstep as <-. simpl in *. lia. }
  destruct (Ascii.eqb d "*").
  { destruct p' as [|e p'']; [discriminate|].
    injection Hstep as <-. simpl in *.
    split; [lia|]. nia. }
  destruct (Ascii.eqb c d); [|now apply Hback].
  injection Hstep as <-. simpl in *. lia.
Qed.

Lemma wc_run_some fuel : forall n st,
  wc_bounded n st -> (wc_rank n st < fuel)%nat ->
  exists b, wc_run fuel st = Some b.
Proof.
  induction fuel as [|fuel IH]; intros n st Hb Hr; [lia|].
  simpl. destruct (wc_step st) as [b|st'] eqn:Hstep; [eauto|].
  destruct (wc_step_decreases n st st' Hb Hstep) as [Hb' Hr'].
  apply (IH n); [assumption | lia].
Qed.

Lemma wc_run_more fuel : forall st b k,
  wc_run fuel st = Some b -> wc_run (fuel + k) st = Some b.
Proof.
  induction fuel as [|fuel IH]; intros st b k; [discriminate|].
  simpl. destruct (wc_step st); [trivial | apply IH].
Qed.

Lemma wc_init_bounded pattern str : wc_bounded (length str) (wc_init pattern str).
Proof. unfold wc_bounded, wc_init; simpl. lia. Qed.

Lemma wc_run_init pattern str :
  wc_run (wc_fuel pattern str) (wc_init pattern str)
  = Some (match_wildcard pattern str).
Proof.
  unfold match_wildcard.
  destruct (wc_run_some (wc_fuel pattern str) (length str) (wc_init pattern str))
    as [b ->]; [apply wc_init_bounded | unfold wc_fuel; lia | reflexivity].
Qed.

(** C9. [match_wildcard] terminates on every pattern and subject: the
    loop returns within [wc_fuel pattern str] turns, whatever the
    backtracking, and a larger budget gives the same result. *)
Theorem match_wildcard_terminates (pattern str : cstring) :
  exists b : bool,
    match_wildcard pattern str = b
    /\ forall k : nat,
         wc_run (wc_fuel pattern str + k) (wc_init pattern str) = Some b.
Proof.
  exists (match_wildcard pattern str). split; [reflexivity|].
  intros k. apply wc_run_more, wc_run_init.
Qed.

(** *** The loop decides the glob relation *)

Lemma glob_nil_l t : glob [] t -> t = [].
Proof. inversion 1; reflexivity. Qed.

Lemma glob_any_inv p t :
  glob ("?"%char :: p) t -> exists c t', t = c :: t' /\ glob p t'.
Proof. inversion 1; subst; try congruence; eauto. Qed.

Lemma glob_lit_inv d p t :
  d <> "?"%char -> d <> "*"%char ->
  glob (d :: p) t -> exists t', t = d :: t' /\ glob p t'.
Proof. intros H1 H2; inversion 1; subst; try congruence; eauto. Qed.

Lemma glob_star_inv p t :
  glob ("*"%char :: p) t <-> exists k, glob p (drop k t).
Proof.
  split.
  - inversion 1; subst; try congruence.
    exists (length s1). now rewrite drop_app_length.
  - intros [k H]. rewrite <- (take_drop k t). now constructor.
Qed.

Lemma glob_all_stars p : glob p [] <-> Forall (fun c => c = "*"%char) p.
Proof.
  split.
  - remember [] as t eqn:Ht. induction 1; try discriminate.
    + constructor.
    + apply app_eq_nil in Ht as [_ ->]. constructor; auto.
  - induction 1 as [|c p -> _ IH]; [constructor|].
    apply (glob_star p [] [] IH).
Qed.

Lemma drop_S_tail (k : nat) (l : cstring) : drop (S k) l = drop k (tail l).
Proof. destruct l; simpl; [now rewrite drop_nil | reflexivity]. Qed.

Lemma ends_star_star_cons d p : ends_star_star p -> ends_star_star (d :: p).
Proof. intros [q ->]. now exists (d :: q). Qed.

Lemma all_stars_ends p :
  Forall (fun c => c = "*"%char) p -> (2 <= length p)%nat -> ends_star_star p.
Proof.
  induction 1 as [|c p -> Hp IH]; simpl; [lia|].
  intros Hlen. destruct p as [|d p'].
  - simpl in Hlen. lia.
  - destruct p' as [|e p''].
    + inversion Hp; subst. now exists [].
    + apply ends_star_star_cons, IH. simpl. lia.
Qed.

Lemma wc_exit_sound p : wc_exit p = true -> glob p [].
Proof.
  unfold wc_exit. destruct p as [|c q]; [constructor|].
  destruct (Ascii.eqb_spec c "*") as [->|Hc]; [|discriminate].
  destruct q; [|discriminate]. intros _.
  apply (glob_star [] [] []). constructor.
Qed.

Lemma wc_exit_complete p :
  ~ ends_star_star p -> glob p [] -> wc_exit p = true.
Proof.
  intros Hp Hg. apply glob_all_stars in Hg.
  destruct p as [|c [|d q]]; [reflexivity| |].
  - inversion Hg; subst. reflexivity.
  - destruct Hp. apply all_stars_ends; [assumption|simpl; lia].
Qed.

Lemma wc_tidy_tail st c p' :
  wc_p st = c :: p' -> wc_tidy st -> ~ ends_star_star p'.
Proof.
  intros Hp [H _] He. apply H. rewrite Hp. now apply ends_star_star_cons.
Qed.

(** A turn that goes round again keeps the invariant and the question. *)
Lemma wc_step_next st st' :
  wc_inv st -> wc_step st = wc_next st' ->
  wc_inv st' /\ (wc_sem st <-> wc_sem st') /\ (wc_tidy st -> wc_tidy st').
Proof.
  destruct st as [s p str pattern star].
  unfold wc_inv, wc_sem, wc_tidy, wc_step, wc_mismatch; simpl.
  intros Hinv Hstep.
  destruct s as [|c s']; [discriminate|].
  (* the backtracking move, shared by the two mismatch cases *)
  assert (Hback : ~ glob p (c :: s') ->
    (if star then wc_next (WcState (tail str) pattern (tail str) pattern true)
     else wc_return false) = wc_next st' ->
    (wc_star st' = true ->
      exists u, wc_str st' = u ++ wc_s st'
        /\ (glob (wc_p st') (wc_s st') -> glob (wc_pattern st') (wc_str st'))
        /\ (forall t, glob (wc_pattern st') t ->
              exists t1 t2, t = t1 ++ t2 /\ length t1 = length u
                            /\ glob (wc_p st') t2))
    /\ ((if star then exists k, glob pattern (drop k str) else glob p (c :: s'))
        <-> (if wc_star st' then exists k, glob (wc_pattern st') (drop k (wc_str st'))
             else glob (wc_p st') (wc_s st')))
    /\ (~ ends_star_star p /\ ~ ends_star_star pattern ->
        ~ ends_star_star (wc_p st') /\ ~ ends_star_star (wc_pattern st'))).
  { intros Hno H. destruct star; [|discriminate].
    injection H as <-. simpl.
    destruct (Hinv eq_refl) as (u & Hstr & Hfwd & Hbwd).
    split; [|split].
    - intros _. exists []. split; [reflexivity|]. split; [trivial|].
      intros t Ht. exists [], t. auto.
    - split; intros [k Hk].
      + destruct k as [|k].
        * exfalso. rewrite drop_0 in Hk.
          destruct (Hbwd _ Hk) as (t1 & t2 & Ht & Hlen & Hg).
          rewrite Hstr in Ht. apply app_inj_1 in Ht as [_ <-]; [|now symmetry].
          now apply Hno.
        * exists k. now rewrite <- drop_S_tail. 
      + exists (S k). now rewrite drop_S_tail.
    - tauto. }
  destruct p as [|d p'].
  { apply Hback; [|assumption]. intros H. inversion H. }
  destruct (Ascii.eqb_spec d "?") as [->|Hq].
  { injection Hstep as <-. simpl.
    split; [|split].
    - intros ->. destruct (Hinv eq_refl) as (u & Hstr & Hfwd & Hbwd).
      exists (u ++ [c]). split; [now rewrite <- app_assoc|].
      split; [intros H; apply Hfwd; now constructor|].
      intros t Ht. destruct (Hbwd _ Ht) as (t1 & t2 & -> & Hlen & Hg).
      apply glob_any_inv in Hg as (c' & t' & -> & Hg).
      exists (t1 ++ [c']), t'. rewrite <- app_assoc, !length_app. simpl.
      auto with lia.
    - destruct star; [reflexivity|].
      split; [intros H; apply glob_any_inv in H as (? & ? & [= <- <-] & ?); trivial
             | now constructor].
    - intros [H1 H2]; split; [|trivial].
      intros He; apply H1; now apply ends_star_star_cons. }
  destruct (Ascii.eqb_spec d "*") as [->|Hs].
  { destruct p' as [|e p'']; [discriminate|].
    injection Hstep as <-. simpl.
    split; [|split].
    - intros _. exists []. split; [reflexivity|]. split; [trivial|].
      intros t Ht. exists [], t. auto.
    - clear Hback. destruct star; [|apply glob_star_inv].
      destruct (Hinv eq_refl) as (u & Hstr & Hfwd & Hbwd).
      split.
      + intros [k Hk]. destruct (Hbwd _ Hk) as (t1 & t2 & Ht & Hlen & Hg).
        apply glob_star_inv in Hg as [j Hj].
        assert (Hsuf : t2 = drop k (c :: s')).
        { assert (Hd : drop (length t1) (drop k str) = t2)
            by (rewrite Ht; apply drop_app_length).
          rewrite <- Hd, Hstr, drop_drop, drop_app_ge by lia.
          f_equal. lia. }
        subst t2. rewrite drop_drop in Hj. eauto.
      + intros H. apply glob_star_inv in H.
        exists 0%nat. rewrite drop_0. now apply Hfwd.
    - intros [H1 H2].
      assert (~ ends_star_star (e :: p''))
        by (intros He; apply H1; now apply ends_star_star_cons).
      tauto. }
  destruct (Ascii.eqb_spec c d) as [<-|Hcd].
  { injection Hstep as <-. simpl.
    split; [|split].
    - intros ->. destruct (Hinv eq_refl) as (u & Hstr & Hfwd & Hbwd).
      exists (u ++ [c]). split; [now rewrite <- app_assoc|].
      split; [intros H; apply Hfwd; now constructor|].
      intros t Ht. destruct (Hbwd _ Ht) as (t1 & t2 & -> & Hlen & Hg).
      apply glob_lit_inv in Hg as (t' & -> & Hg); [|assumption..].
      exists (t1 ++ [c]), t'. rewrite <- app_assoc, !length_app. simpl.
      auto with lia.
    - destruct star; [reflexivity|].
      split; [intros H; apply glob_lit_inv in H as (? & [= <-] & ?); trivial
             | now constructor].
    - intros [H1 H2]; split; [|trivial].
      intros He; apply H1; now apply ends_star_star_cons. }
  apply Hback; [|assumption].
  intros H. apply glob_lit_inv in H as (? & [= ? ?] & ?); congruence.
Qed.

Lemma glob_trailing_star s : glob ["*"%char] s.
Proof.
  rewrite <- (app_nil_r s). apply glob_star. constructor.
Qed.

(** A turn that returns answers the question. *)
Lemma wc_step_return st b :
  wc_inv st -> wc_step st = wc_return b ->
  (b = true -> wc_sem st) /\ (wc_tidy st -> wc_sem st -> b = true).
Proof.
  destruct st as [s p str pattern star].
  unfold wc_inv, wc_sem, wc_tidy, wc_step, wc_mismatch; simpl.
  intros Hinv Hstep.
  destruct s as [|c s'].
  { injection Hstep as <-. destruct star.
    - destruct (Hinv eq_refl) as (u & Hstr & Hfwd & Hbwd).
      rewrite app_nil_r in Hstr. subst u. split.
      + intros H. exists 0%nat. rewrite drop_0. now apply Hfwd, wc_exit_sound.
      + intros [Hp _] [k Hk].
        destruct (Hbwd _ Hk) as (t1 & t2 & Ht & Hlen & Hg).
        apply wc_exit_complete; [assumption|].
        assert (Hl : length (drop k str) = (length t1 + length t2)%nat)
          by (rewrite Ht, length_app; reflexivity).
        rewrite length_drop in Hl.
        destruct t2; [assumption | simpl in Hl; lia].
    - split; [apply wc_exit_sound | intros [Hp _]; now apply wc_exit_complete]. }
  assert (Hback : ~ glob p (c :: s') ->
    (if star then wc_next (WcState (tail str) pattern (tail str) pattern true)
     else wc_return false) = wc_return b ->
    (b = true -> if star then exists k, glob pattern (drop k str)
                 else glob p (c :: s'))
    /\ (~ ends_star_star p /\ ~ ends_star_star pattern ->
        (if star then exists k, glob pattern (drop k str) else glob p (c :: s'))
        -> b = true)).
  { intros Hno H. destruct star; [discriminate|].
    injection H as <-. split; [discriminate | tauto]. }
  destruct p as [|d p'].
  { apply Hback; [|assumption]. intros H. inversion H. }
  destruct (Ascii.eqb_spec d "?") as [->|Hq]; [discriminate|].
  destruct (Ascii.eqb_spec d "*") as [->|Hs].
  { destruct p' as [|e p'']; [|discriminate].
    injection Hstep as <-. split; [intros _ | trivial].
    destruct star; [|apply glob_trailing_star].
    destruct (Hinv eq_refl) as (u & Hstr & Hfwd & Hbwd).
    exists 0%nat. rewrite drop_0. apply Hfwd, glob_trailing_star. }
  destruct (Ascii.eqb_spec c d) as [<-|Hcd]; [discriminate|].
  apply Hback; [|assumption].
  intros H. apply glob_lit_inv in H as (? & [= ? ?] & ?); congruence.
Qed.

Lemma wc_run_sem fuel : forall st b,
  wc_inv st -> wc_run fuel st = Some b ->
  (b = true -> wc_sem st) /\ (wc_tidy st -> wc_sem st -> b = true).
Proof.
  induction fuel as [|fuel IH]; intros st b Hinv Hrun; [discriminate|].
  simpl in Hrun. destruct (wc_step st) as [b'|st'] eqn:Hstep.
  - injection Hrun as ->. now apply wc_step_return.
  - destruct (wc_step_next st st' Hinv Hstep) as (Hinv' & Hsem & Htidy).
    destruct (IH st' b Hinv' Hrun) as [Hs Hc].
    split; [intros H; apply Hsem; auto|].
    intros Ht H. apply Hc; [auto | now apply Hsem].
Qed.

Lemma wc_init_inv pattern str : wc_inv (wc_init pattern str).
Proof. unfold wc_inv, wc_init; simpl. discriminate. Qed.

(** *** Soundness, and completeness away from a trailing pair of stars *)

Lemma match_wildcard_sound (pattern str : cstring) :
  match_wildcard pattern str = true -> glob pattern str.
Proof.
  intros H.
  destruct (wc_run_sem _ _ _ (wc_init_inv pattern str) (wc_run_init pattern str))
    as [Hs _].
  exact (Hs H).
Qed.

Lemma match_wildcard_complete (pattern str : cstring) :
  ~ ends_star_star pattern -> glob pattern str ->
  match_wildcard pattern str = true.
Proof.
  intros Hp H.
  destruct (wc_run_sem _ _ _ (wc_init_inv pattern str) (wc_run_init pattern str))
    as [_ Hc].
  apply Hc; [split; exact Hp | exact H].
Qed.

(** Whole-string matching for every pattern that does not end in two
    stars. *)
Lemma match_wildcard_glob (pattern str : cstring) :
  ~ ends_star_star pattern ->
  match_wildcard pattern str = true <-> glob pattern str.
Proof.
  intros Hp. split; [apply match_wildcard_sound | now apply match_wildcard_complete].
Qed.

Lemma match_wildcard_glob_witness :
  match_wildcard (cs "n?me*1") (cs "nvme0n1") = true
  <-> glob (cs "n?me*1") (cs "nvme0n1").
Proof.
  apply match_wildcard_glob. intros [q Hq].
  apply (f_equal (@rev ascii)) in Hq. rewrite rev_app_distr in Hq.
  discriminate Hq.
Defined.

(** The examples of the specification that the code agrees with. *)
Lemma match_wildcard_examples :
  match_wildcard (cs "a*c") (cs "abc") = true
  /\ match_wildcard (cs "a*c") (cs "ac") = true
  /\ match_wildcard (cs "a?c") (cs "abc") = true
  /\ match_wildcard (cs "a?c") (cs "ac") = false.
Proof. repeat split; reflexivity. Qed.

Lemma match_wildcard_lone_star (str : cstring) :
  match_wildcard (cs "*") str = true.
Proof.
  apply match_wildcard_complete.
  - intros [q Hq]. apply (f_equal (@length ascii)) in Hq.
    rewrite length_app in Hq. simpl in Hq. lia.
  - apply glob_trailing_star.
Qed.

(** C2. The whole subject "a" matches the whole pattern "a**" (the
    literal takes the "a", each star takes nothing), and so does the
    empty subject the pattern "**"; [match_wildcard] answers false on
    both, because after the loop it steps over one star only.  With a
    longer subject, "ab", the same pattern is accepted. *)
Theorem match_wildcard_trailing_stars :
  glob (cs "a**") (cs "a") /\ match_wildcard (cs "a**") (cs "a") = false
  /\ glob (cs "**") (cs "") /\ match_wildcard (cs "**") (cs "") = false
  /\ match_wildcard (cs "a**") (cs "ab") = true.
Proof.
  split; [|split; [reflexivity|split; [|split; reflexivity]]].
  - apply (glob_lit _ [] "a"%char); [discriminate..|].
    apply (glob_star _ [] []), glob_trailing_star.
  - apply (glob_star _ [] []), glob_trailing_star.
Qed.

End WildcardFacts.

(** ** The option parser *)

Module ParserFacts.
Import Cint Libc Parser LibcFacts.

(** The branches of the [switch] in [m1_conversion]. *)
Ltac conversion_cases :=
  repeat match goal with
         | |- context [if Ascii.eqb ?a ?b then _ else _] =>
             destruct (Ascii.eqb a b)
         | |- context [if ?a =? ?b then _ else _] => destruct (a =? b)
         end.

Lemma set_from_same a i v : set_from a i v i = Substring v (to (a i)).
Proof. unfold set_from. now rewrite decide_True. Qed.

Lemma set_from_other a i v j : j <> i -> set_from a i v j = a j.
Proof. intros H. unfold set_from. now rewrite decide_False. Qed.

Lemma set_to_same a i v : set_to a i v i = Substring (from (a i)) v.
Proof. unfold set_to. now rewrite decide_True. Qed.

Lemma set_to_other a i v j : j <> i -> set_to a i v j = a j.
Proof. intros H. unfold set_to. now rewrite decide_False. Qed.

Lemma set_span a i x y : set_to (set_from a i x) i y i = Substring x y.
Proof. now rewrite set_to_same, set_from_same. Qed.

Lemma set_span_other a i x y j :
  j <> i -> set_to (set_from a i x) i y j = a j.
Proof. intros H. now rewrite set_to_other, set_from_other. Qed.

(** *** match_strlcpy, match_strdup, match_number *)

Lemma substring_length buf sp :
  substring_valid buf sp -> length (substring_text buf sp) = (to sp - from sp)%nat.
Proof.
  unfold substring_valid, substring_text. intros H.
  rewrite length_take, length_drop. lia.
Qed.

Lemma substring_size buf sp :
  substring_valid buf sp -> Z.of_nat (length buf) <= SIZE_MAX ->
  to_size_t (Z.of_nat (to sp) - Z.of_nat (from sp)) = Z.of_nat (to sp - from sp).
Proof.
  unfold substring_valid. intros H Hb.
  rewrite CintFacts.to_size_t_id; lia.
Qed.

(** [memcpy] of [k] bytes followed by [dest[k] = 0]. *)
Lemma copy_terminate (dest src : bytes) k :
  (k <= length src)%nat -> (k < length dest)%nat ->
  <[k := NUL]> (memcpy dest src k) = take k src ++ NUL :: drop (S k) dest.
Proof.
  intros Hs Hd. unfold memcpy.
  rewrite insert_app_r_alt by (rewrite length_take; lia).
  rewrite length_take, Nat.min_l, Nat.sub_diag by lia.
  destruct (lookup_lt_is_Some_2 dest k Hd) as [x Hx].
  now rewrite (drop_S _ _ _ Hx).
Qed.

Lemma match_strlcpy_eq dest buf src size :
  substring_valid buf src -> Z.of_nat (length buf) <= SIZE_MAX ->
  0 < size <= SIZE_MAX -> size <= Z.of_nat (length dest) ->
  let n := (to src - from src)%nat in
  let k := Nat.min n (Z.to_nat size - 1) in
  match_strlcpy dest buf src size
  = (Z.of_nat n, take k (substring_text buf src) ++ NUL :: drop (S k) dest).
Proof.
  intros Hv Hb Hsz Hd n k. unfold match_strlcpy.
  rewrite (substring_size buf src Hv Hb). fold n.
  destruct (Z.eqb_spec size 0); [lia|].
  assert (Hn : (n <= length (drop (from src) buf))%nat)
    by (unfold n, substring_valid in *; rewrite length_drop; lia).
  match goal with
  | |- context [Z.to_nat ?len] => assert (Hk : Z.to_nat len = k)
  end.
  { unfold k. destruct (Z.leb_spec size (Z.of_nat n)).
    - rewrite CintFacts.to_size_t_id by lia. lia.
    - lia. }
  rewrite Hk, copy_terminate by (unfold k; lia).
  unfold substring_text. fold n. rewrite take_take.
  now replace (Nat.min k n) with k by (unfold k; lia).
Qed.

Lemma match_strdup_eq malloc buf sp blk :
  allocator_ok malloc ->
  substring_valid buf sp -> Z.of_nat (length buf) < SIZE_MAX ->
  malloc (Z.of_nat (to sp - from sp) + 1) = Some blk ->
  match_strdup malloc buf sp = Some (substring_text buf sp ++ [NUL]).
Proof.
  intros Hm Hv Hb Hblk. unfold match_strdup.
  assert (Hsz : to_size_t (Z.of_nat (to sp) - Z.of_nat (from sp) + 1)
                = Z.of_nat (to sp - from sp) + 1).
  { unfold substring_valid in Hv. rewrite CintFacts.to_size_t_id; lia. }
  rewrite Hsz, Hblk. apply Hm in Hblk.
  rewrite match_strlcpy_eq by (unfold substring_valid in *; lia). simpl.
  replace (Nat.min _ _) with (to sp - from sp)%nat by lia.
  rewrite (drop_ge blk) by lia.
  rewrite take_ge; [reflexivity|].
  rewrite substring_length by assumption. lia.
Qed.

Lemma cstr_of_terminated text rest :
  NUL ∉ text -> cstr_of (text ++ NUL :: rest) = text.
Proof.
  induction text as [|c text IH]; simpl; intros H.
  - reflexivity.
  - apply not_elem_of_cons in H as [Hc H].
    destruct (Ascii.eqb_spec c NUL); [congruence|]. now rewrite IH.
Qed.

Lemma substring_no_nul buf sp : NUL ∉ buf -> NUL ∉ substring_text buf sp.
Proof.
  intros H Hin. apply H. unfold substring_text in Hin.
  now apply subseteq_take, subseteq_drop in Hin.
Qed.

(** After a successful [malloc], [match_number] is [strtol] on the text
    of the substring followed by the range check. *)
Lemma match_number_eq malloc buf s result base blk :
  allocator_ok malloc ->
  substring_valid buf s -> Z.of_nat (length buf) < SIZE_MAX -> NUL ∉ buf ->
  malloc (Z.of_nat (to s - from s) + 1) = Some blk ->
  match_number malloc buf s result base
  = let '(val, endp) := strtol (substring_text buf s) base in
    if bool_decide (endp = O) then (- EINVAL, result)
    else if (val <? INT_MIN) || (INT_MAX <? val) then (- ERANGE, result)
    else (0, val).
Proof.
  intros Hm Hv Hb Hnul Hblk. unfold match_number.
  rewrite (substring_size buf s Hv) by lia.
  rewrite CintFacts.to_size_t_id by (unfold substring_valid in Hv; lia).
  rewrite Hblk. apply Hm in Hblk. rewrite Nat2Z.id.
  rewrite copy_terminate;
    [|unfold substring_valid in Hv; rewrite length_drop; lia | lia].
  fold (substring_text buf s).
  rewrite cstr_of_terminated by now apply substring_no_nul.
  destruct (strtol (substring_text buf s) base) as [val endp].
  case_bool_decide; [reflexivity|].
  destruct (Z.ltb_spec val INT_MIN); [reflexivity|].
  destruct (Z.ltb_spec INT_MAX val); [reflexivity|]. simpl.
  now rewrite CintFacts.to_int_id.
Qed.

(** C7. [match_strlcpy] returns the length of the substring, whatever
    the size of the buffer; with a size that is not zero it copies the
    first min(length, size - 1) bytes of the substring and writes a NUL
    right after them, leaving the rest of the buffer alone. *)
Theorem match_strlcpy_truncates (dest : bytes) (buf : cstring)
    (src : substring_t) (size : Z) :
  substring_valid buf src -> Z.of_nat (length buf) <= SIZE_MAX ->
  0 <= size <= SIZE_MAX -> size <= Z.of_nat (length dest) ->
  let n := (to src - from src)%nat in
  let k := Nat.min n (Z.to_nat size - 1) in
  fst (match_strlcpy dest buf src size) = Z.of_nat n
  /\ (size = 0 -> snd (match_strlcpy dest buf src size) = dest)
  /\ (size <> 0 ->
      snd (match_strlcpy dest buf src size)
      = take k (substring_text buf src) ++ NUL :: drop (S k) dest).
Proof.
  intros Hv Hb Hsz Hd n k.
  destruct (Z.eq_dec size 0) as [->|Hnz].
  - unfold match_strlcpy. simpl.
    rewrite (substring_size buf src Hv Hb).
    split; [reflexivity|]. split; [reflexivity | intros H; now destruct H].
  - rewrite match_strlcpy_eq by (assumption || lia). simpl.
    split; [reflexivity|]. split; [intros H; now destruct Hnz | reflexivity].
Qed.

(** C4. With the scratch buffer allocated, [match_number] returns 0
    and stores the value exactly when [strtol] on the text of the
    substring consumed a character and the value is an [int]; it
    returns -EINVAL when nothing was consumed and -ERANGE when the
    value is below INT_MIN or above INT_MAX.  Without the buffer it
    returns -ENOMEM.  [match_int], [match_octal] and [match_hex] are
    the bases 0, 8 and 16. *)
Theorem match_number_result (malloc : allocator) (buf : cstring)
    (s : substring_t) (result base : Z) :
  allocator_ok malloc ->
  substring_valid buf s -> Z.of_nat (length buf) < SIZE_MAX -> NUL ∉ buf ->
  let val := fst (strtol (substring_text buf s) base) in
  let consumed := snd (strtol (substring_text buf s) base) in
  let r := match_number malloc buf s result base in
  (malloc (Z.of_nat (to s - from s) + 1) = None -> r = (- ENOMEM, result))
  /\ (is_Some (malloc (Z.of_nat (to s - from s) + 1)) ->
      (r = (0, val) <-> consumed <> O /\ INT_MIN <= val <= INT_MAX)
      /\ (fst r = 0 -> r = (0, val))
      /\ (consumed = O -> r = (- EINVAL, result))
      /\ (consumed <> O -> val < INT_MIN \/ INT_MAX < val ->
          r = (- ERANGE, result)))
  /\ match_int malloc buf s result = match_number malloc buf s result 0
  /\ match_octal malloc buf s result = match_number malloc buf s result 8
  /\ match_hex malloc buf s result = match_number malloc buf s result 16.
Proof.
  intros Hm Hv Hb Hnul val consumed r.
  split; [|split; [|repeat split; reflexivity]].
  - intros Hnone. unfold r, match_number.
    rewrite (substring_size buf s Hv) by lia.
    rewrite CintFacts.to_size_t_id by (unfold substring_valid in Hv; lia).
    now rewrite Hnone.
  - intros [blk Hblk]. unfold r.
    rewrite (match_number_eq malloc buf s result base blk) by assumption.
    unfold val, consumed.
    destruct (strtol (substring_text buf s) base) as [v e]. simpl.
    unfold EINVAL, ERANGE in *.
    case_bool_decide as He; [|destruct (Z.ltb_spec v INT_MIN);
                               [|destruct (Z.ltb_spec INT_MAX v)]]; simpl.
    + split; [split; [discriminate | tauto]|].
      split; [discriminate|]. split; [reflexivity | contradiction].
    + split; [split; [discriminate | lia]|].
      split; [discriminate|]. split; [contradiction | reflexivity].
    + split; [split; [discriminate | lia]|].
      split; [discriminate|]. split; [contradiction | reflexivity].
    + split; [split; [intros _; split; [assumption | lia] | reflexivity]|].
      split; [reflexivity|]. split; [contradiction | lia].
Qed.

(** C10. Whenever [match_number] returns something other than 0, the
    [int] behind [result] is what it was before the call; so for
    [match_int], [match_octal] and [match_hex]. *)
Theorem match_number_error_keeps_result (malloc : allocator) (buf : cstring)
    (s : substring_t) (result base : Z) :
  (fst (match_number malloc buf s result base) <> 0 ->
   snd (match_number malloc buf s result base) = result)
  /\ (fst (match_int malloc buf s result) <> 0 ->
      snd (match_int malloc buf s result) = result)
  /\ (fst (match_octal malloc buf s result) <> 0 ->
      snd (match_octal malloc buf s result) = result)
  /\ (fst (match_hex malloc buf s result) <> 0 ->
      snd (match_hex malloc buf s result) = result).
Proof.
  assert (H : forall b,
    fst (match_number malloc buf s result b) <> 0 ->
    snd (match_number malloc buf s result b) = result).
  { intros b. unfold match_number.
    destruct (malloc _) as [blk|]; [|reflexivity].
    destruct (strtol _ b) as [val endp].
    case_bool_decide; [reflexivity|].
    destruct (_ || _); [reflexivity|]. simpl. congruence. }
  unfold match_int, match_octal, match_hex. auto.
Qed.

Section MatchOne.
Variable MAX_OPT_ARGS : nat.

Lemma m1_num_frame s p args argc k i :
  i <> argc -> m1_args (m1_num s p args argc k) i = args i.
Proof.
  intros Hi. unfold m1_num. case_bool_decide; simpl; now rewrite set_to_other.
Qed.

Lemma m1_num_argc s p args argc k :
  (argc <= m1_argc (m1_num s p args argc k) <= S argc)%nat.
Proof. unfold m1_num. case_bool_decide; simpl; lia. Qed.

Lemma m1_num_sim s p a1 a2 argc k x :
  m1_sim (m1_num s p (set_from a1 argc x) argc k)
         (m1_num s p (set_from a2 argc x) argc k)
  /\ (m1_args (m1_num s p (set_from a1 argc x) argc k) argc
      = m1_args (m1_num s p (set_from a2 argc x) argc k) argc).
Proof.
  unfold m1_num. rewrite !set_span. simpl.
  case_bool_decide; simpl; now rewrite !set_span.
Qed.

Lemma m1_conversion_frame subj s p len args argc i :
  i <> argc \/ (MAX_OPT_ARGS <= argc)%nat ->
  m1_args (m1_conversion MAX_OPT_ARGS subj s p len args argc) i = args i.
Proof.
  intros Hi. unfold m1_conversion.
  case_bool_decide as Hcap; [reflexivity|].
  destruct Hi as [Hi|Hi]; [|lia].
  conversion_cases; simpl;
    rewrite ?m1_num_frame, ?set_to_other, ?set_from_other by assumption;
    reflexivity.
Qed.

Lemma m1_conversion_argc subj s p len args argc :
  let o := m1_conversion MAX_OPT_ARGS subj s p len args argc in
  (argc <= m1_argc o <= S argc)%nat
  /\ (MAX_OPT_ARGS <= argc -> o = m1_return false args argc)%nat.
Proof.
  unfold m1_conversion. case_bool_decide as Hcap.
  - simpl. split; [lia | reflexivity].
  - split; [|lia].
    conversion_cases; simpl; try apply m1_num_argc; lia.
Qed.

Lemma m1_conversion_sim subj s p len a1 a2 argc :
  let o1 := m1_conversion MAX_OPT_ARGS subj s p len a1 argc in
  let o2 := m1_conversion MAX_OPT_ARGS subj s p len a2 argc in
  m1_sim o1 o2
  /\ ((argc < m1_argc o1)%nat -> m1_args o1 argc = m1_args o2 argc).
Proof.
  unfold m1_conversion. case_bool_decide as Hcap; simpl; [split; [auto|lia]|].
  conversion_cases; simpl; rewrite ?set_span; simpl;
    try (split; [auto | lia]);
    try (split; [auto | reflexivity]).
  all: match goal with
       | |- context [m1_num _ _ _ _ ?k] =>
           destruct (m1_num_sim s (drop 1 p) a1 a2 argc k s); split; auto
       end.
Qed.


Lemma m1_body_frame subj s p args argc i :
  i <> argc \/ (MAX_OPT_ARGS <= argc)%nat ->
  m1_args (m1_body MAX_OPT_ARGS subj s p args argc) i = args i.
Proof.
  intros Hi. unfold m1_body.
  destruct (strchr p "%"); [|reflexivity].
  destruct (negb _); [reflexivity|].
  destruct (isdigit _).
  - destruct (strtoul _ 10) as [v k]. now apply m1_conversion_frame.
  - destruct (Ascii.eqb _ "%").
    + destruct (Ascii.eqb _ "%"); reflexivity.
    + now apply m1_conversion_frame.
Qed.

Lemma m1_body_argc subj s p args argc :
  let o := m1_body MAX_OPT_ARGS subj s p args argc in
  (argc <= m1_argc o <= S argc)%nat.
Proof.
  unfold m1_body.
  destruct (strchr p "%"); [|simpl; lia].
  destruct (negb _); [simpl; lia|].
  destruct (isdigit _).
  - destruct (strtoul _ 10) as [v k]. apply m1_conversion_argc.
  - destruct (Ascii.eqb _ "%").
    + destruct (Ascii.eqb _ "%"); simpl; lia.
    + apply m1_conversion_argc.
Qed.

Lemma m1_conversion_continue subj s p len args argc s' p' a c :
  m1_conversion MAX_OPT_ARGS subj s p len args argc = m1_continue s' p' a c ->
  p' = drop 1 p.
Proof.
  unfold m1_conversion, m1_num. case_bool_decide; [discriminate|].
  conversion_cases; repeat case_bool_decide; try discriminate;
    now intros [= _ <- _ _].
Qed.

(** Every turn that goes round again has stepped over a [%]. *)
Lemma m1_body_shorter subj s p args argc s' p' a c :
  m1_body MAX_OPT_ARGS subj s p args argc = m1_continue s' p' a c ->
  (length p' < length p)%nat.
Proof.
  unfold m1_body.
  destruct (strchr p "%") as [n|] eqn:Hn; [|discriminate].
  apply strchr_lt in Hn.
  destruct (negb _); [discriminate|].
  destruct (isdigit _).
  - destruct (strtoul _ 10) as [v k]. intros H.
    apply m1_conversion_continue in H as ->.
    rewrite !length_drop. lia.
  - destruct (Ascii.eqb _ "%").
    + destruct (Ascii.eqb _ "%"); [|discriminate].
      intros [= _ <- _ _]. rewrite !length_drop. lia.
    + intros H. apply m1_conversion_continue in H as ->.
      rewrite !length_drop. lia.
Qed.

Lemma m1_body_sim subj s p a1 a2 argc :
  let o1 := m1_body MAX_OPT_ARGS subj s p a1 argc in
  let o2 := m1_body MAX_OPT_ARGS subj s p a2 argc in
  m1_sim o1 o2
  /\ ((argc < m1_argc o1)%nat -> m1_args o1 argc = m1_args o2 argc).
Proof.
  unfold m1_body.
  destruct (strchr p "%"); [|simpl; split; [auto|lia]].
  destruct (negb _); [simpl; split; [auto|lia]|].
  destruct (isdigit _).
  - destruct (strtoul _ 10) as [v k]. apply m1_conversion_sim.
  - destruct (Ascii.eqb _ "%").
    + destruct (Ascii.eqb _ "%"); simpl; (split; [auto|lia]).
    + apply m1_conversion_sim.
Qed.

(** *** The loop of [match_one] *)

Lemma m1_loop_total fuel : forall subj s p args argc,
  (length p < fuel)%nat ->
  exists r a c, m1_loop MAX_OPT_ARGS fuel subj s p args argc = Some (r, a, c).
Proof.
  induction fuel as [|fuel IH]; intros subj s p args argc Hlen; [lia|].
  simpl. destruct (m1_body _ subj s p args argc) as [r a c|s' p' a c] eqn:Hb.
  - eauto.
  - apply m1_body_shorter in Hb. apply IH. lia.
Qed.

Lemma m1_loop_more fuel : forall subj s p args argc res k,
  m1_loop MAX_OPT_ARGS fuel subj s p args argc = Some res ->
  m1_loop MAX_OPT_ARGS (fuel + k) subj s p args argc = Some res.
Proof.
  induction fuel as [|fuel IH]; intros subj s p args argc res k; [discriminate|].
  simpl. destruct (m1_body _ subj s p args argc); [trivial | apply IH].
Qed.

(** The loop writes neither below the [argc] it starts from nor at or
    above [MAX_OPT_ARGS]. *)
Lemma m1_loop_frame fuel : forall subj s p args argc r a c,
  m1_loop MAX_OPT_ARGS fuel subj s p args argc = Some (r, a, c) ->
  (argc <= c)%nat
  /\ forall i, (i < argc \/ MAX_OPT_ARGS <= i)%nat -> a i = args i.
Proof.
  induction fuel as [|fuel IH]; intros subj s p args argc r a c; [discriminate|].
  simpl.
  pose proof (m1_body_argc subj s p args argc) as Hc.
  pose proof (m1_body_frame subj s p args argc) as Hf.
  destruct (m1_body _ subj s p args argc) as [r' a' c'|s' p' a' c']; simpl in *.
  - intros [= -> -> ->]. split; [lia|].
    intros i Hi. apply Hf.
    destruct (decide (i = argc)); [right; lia | now left].
  - intros H. apply IH in H as [Hle Hfr]. split; [lia|].
    intros i Hi. rewrite Hfr by lia. apply Hf.
    destruct (decide (i = argc)); [right; lia | now left].
Qed.

(** Neither the result nor the spans recorded depend on what the array
    held before. *)
Lemma m1_loop_sim fuel : forall subj s p a1 a2 argc,
  agree argc a1 a2 ->
  match m1_loop MAX_OPT_ARGS fuel subj s p a1 argc,
        m1_loop MAX_OPT_ARGS fuel subj s p a2 argc with
  | Some (r1, b1, c1), Some (r2, b2, c2) => r1 = r2 /\ c1 = c2 /\ agree c1 b1 b2
  | None, None => True
  | _, _ => False
  end.
Proof.
  induction fuel as [|fuel IH]; intros subj s p a1 a2 argc Hag; [exact I|].
  simpl.
  pose proof (m1_body_sim subj s p a1 a2 argc) as [Hsim Hat].
  pose proof (m1_body_argc subj s p a1 argc) as Hc.
  pose proof (m1_body_frame subj s p a1 argc) as Hf1.
  pose proof (m1_body_frame subj s p a2 argc) as Hf2.
  assert (Hag' : agree (m1_argc (m1_body MAX_OPT_ARGS subj s p a1 argc))
                   (m1_args (m1_body MAX_OPT_ARGS subj s p a1 argc))
                   (m1_args (m1_body MAX_OPT_ARGS subj s p a2 argc))).
  { intros i Hi. destruct (decide (i = argc)) as [->|Hne].
    - apply Hat. exact Hi.
    - rewrite Hf1, Hf2 by now left. apply Hag. simpl in Hc. lia. }
  destruct (m1_body _ subj s p a1 argc) as [r1 b1 c1|s1 p1 b1 c1],
           (m1_body _ subj s p a2 argc) as [r2 b2 c2|s2 p2 b2 c2];
    simpl in *; try contradiction.
  - destruct Hsim as [-> ->]. auto.
  - destruct Hsim as (-> & -> & ->). now apply IH.
Qed.


(** *** match_one *)

Lemma match_one_count_total s p args :
  exists r a c, match_one_count MAX_OPT_ARGS s p args = Some (r, a, c).
Proof.
  destruct p as [p|]; unfold match_one_count; [|eauto].
  apply m1_loop_total. lia.
Qed.

Lemma match_one_eq s p args r a c :
  match_one_count MAX_OPT_ARGS s p args = Some (r, a, c) ->
  match_one MAX_OPT_ARGS s p args = (r, a).
Proof. unfold match_one. now intros ->. Qed.

Lemma match_one_count_frame s p args r a c i :
  match_one_count MAX_OPT_ARGS s p args = Some (r, a, c) ->
  (MAX_OPT_ARGS <= i)%nat -> a i = args i.
Proof.
  destruct p as [p|]; unfold match_one_count.
  - intros H Hi. apply m1_loop_frame in H as [_ H]. apply H. now right.
  - now intros [= _ <- _].
Qed.




(** The result and the recorded spans are those of a run on a blank
    array. *)
Lemma match_one_blank s p args :
  fst (match_one MAX_OPT_ARGS s p args) = m1_matches MAX_OPT_ARGS s p
  /\ forall i sp, m1_spans MAX_OPT_ARGS s p !! i = Some sp ->
       snd (match_one MAX_OPT_ARGS s p args) i = sp.
Proof.
  unfold m1_matches, m1_spans, match_one.
  destruct p as [p|]; unfold match_one_count.
  - pose proof (m1_loop_sim (S (length p)) s 0 p args blank 0) as Hsim.
    destruct (m1_loop_total (S (length p)) s 0 p args 0) as (r1 & b1 & c1 & H1);
      [lia|].
    destruct (m1_loop_total (S (length p)) s 0 p blank 0) as (r2 & b2 & c2 & H2);
      [lia|].
    rewrite H1, H2 in *.
    destruct Hsim as (-> & -> & Hag); [intros i Hi; lia|].
    split; [reflexivity|]. simpl.
    intros i sp Hi.
    apply list_lookup_fmap_Some in Hi as (j & -> & Hj).
    apply lookup_seq in Hj as [-> Hlt]. simpl. now apply Hag.
  - split; [reflexivity|]. intros i sp Hi. simpl in Hi.
    now rewrite lookup_nil in Hi.
Qed.

Lemma m1_matches_sentinel s : m1_matches MAX_OPT_ARGS s None = true.
Proof. reflexivity. Qed.

(** *** match_token *)

Lemma match_token_scan s : forall pre e post args,
  Forall (fun x => m1_matches MAX_OPT_ARGS s (pattern x) = false) pre ->
  m1_matches MAX_OPT_ARGS s (pattern e) = true ->
  exists args',
    match_token MAX_OPT_ARGS s (pre ++ e :: post) args = Some (token e, args')
    /\ forall i sp, m1_spans MAX_OPT_ARGS s (pattern e) !! i = Some sp ->
         args' i = sp.
Proof.
  induction pre as [|x pre IH]; intros e post args Hpre He; simpl.
  - destruct (match_one_blank s (pattern e) args) as [Hr Hsp].
    destruct (match_one _ s (pattern e) args) as [r a]; simpl in *.
    rewrite Hr, He. eauto.
  - inversion Hpre as [|? ? Hx Hpre']; subst.
    destruct (match_one_blank s (pattern x) args) as [Hr _].
    destruct (match_one _ s (pattern x) args) as [r a]; simpl in *.
    rewrite Hr, Hx. now apply IH.
Qed.


(** With nothing matching before it, the sentinel's token is returned. *)
Lemma match_token_sentinel s pre t post args :
  Forall (fun x => m1_matches MAX_OPT_ARGS s (pattern x) = false) pre ->
  exists args',
    match_token MAX_OPT_ARGS s (pre ++ MatchToken t None :: post) args
    = Some (t, args').
Proof.
  intros Hpre.
  destruct (match_token_scan s pre (MatchToken t None) post args Hpre eq_refl)
    as (args' & H & _).
  eauto.
Qed.




(** *** Patterns without conversions *)

Lemma escapes_only_app lit q :
  strchr lit "%" = None ->
  escapes_only (lit ++ q) = escapes_only q
  /\ unescape (lit ++ q) = lit ++ unescape q.
Proof.
  induction lit as [|c lit IH]; simpl; [auto|].
  destruct (Ascii.eqb c "%"); [discriminate|].
  destruct (strchr lit "%"); [discriminate|].
  intros _. destruct (IH eq_refl) as [-> ->]. auto.
Qed.

Lemma unescape_plain p : strchr p "%" = None -> escapes_only p = true /\ unescape p = p.
Proof.
  intros H. destruct (escapes_only_app p [] H) as [H1 H2].
  rewrite app_nil_r in *. simpl in *. now rewrite app_nil_r in H2.
Qed.

Lemma deref_cons (l : cstring) c : deref l = c -> c <> NUL -> l = c :: drop 1 l.
Proof. destruct l; simpl; [congruence | now intros ->]. Qed.

Lemma m1_loop_escapes fuel : forall subj s p args argc,
  escapes_only p = true -> (length p < fuel)%nat ->
  m1_loop MAX_OPT_ARGS fuel subj s p args argc
  = Some (bool_decide (unescape p = drop s subj), args, argc).
Proof.
  induction fuel as [|fuel IH]; intros subj s p args argc Hesc Hlen; [lia|].
  simpl. unfold m1_body.
  destruct (strchr p "%") as [n|] eqn:Hn.
  2:{ destruct (unescape_plain p Hn) as [_ ->]. reflexivity. }
  pose proof (strchr_lt _ _ _ Hn) as Hlt.
  destruct (strchr_Some _ _ _ Hn) as [Hp Hlit].
  set (lit := take n p) in *. set (q := drop (S n) p) in *.
  assert (Hlitlen : length lit = n) by (unfold lit; rewrite length_take; lia).
  destruct (escapes_only_app lit ("%"%char :: q) Hlit) as [He Hu].
  rewrite <- Hp in He, Hu. rewrite Hesc in He. simpl in He, Hu.
  destruct q as [|d q'] eqn:Hq; [discriminate|].
  symmetry in He. apply andb_true_iff in He as [Hd He].
  apply Ascii.eqb_eq in Hd as ->.
  unfold strncmp_eq. fold lit.
  assert (Hsplit : drop s subj = take n (drop s subj) ++ drop (s + n) subj)
    by now rewrite <- drop_drop, take_drop.
  case_bool_decide as Hcmp; simpl.
  2:{ rewrite bool_decide_eq_false_2; [reflexivity|].
      intros Heq. apply Hcmp. rewrite <- Heq, Hu.
      now rewrite <- Hlitlen, take_app_length. }
  destruct (Ascii.eqb_spec (deref (drop (s + n) subj)) "%") as [Hc|Hc].
  - apply deref_cons in Hc; [|discriminate].
    rewrite drop_drop in Hc. rewrite drop_0.
    rewrite IH; [|assumption|].
    2:{ assert (Hlp : length p = (length lit + S (S (length q')))%nat)
          by (rewrite Hp at 1; rewrite length_app; reflexivity).
        lia. }
    erewrite bool_decide_ext; [reflexivity|].
    rewrite Hu, Hsplit, <- Hcmp, Hc.
    replace (S (s + n)) with (s + n + 1)%nat by lia.
    split; [now intros -> | intros H; now simplify_list_eq].
  - rewrite bool_decide_eq_false_2; [reflexivity|].
    intros Heq. apply Hc. rewrite Hu, Hsplit, <- Hcmp in Heq.
    apply app_inv_head in Heq. now rewrite <- Heq.
Qed.

(** C6, amended. For a pattern without placeholders, [match_one]
    succeeds exactly when the subject is the pattern with each escape
    [%%] read as one [%], and it leaves [args] alone; for a pattern
    without any [%] that text is the pattern itself. *)
Theorem match_one_literal (p s : cstring) (args : args_t) :
  escapes_only p = true ->
  (fst (match_one MAX_OPT_ARGS s (Some p) args) = true <-> s = unescape p)
  /\ snd (match_one MAX_OPT_ARGS s (Some p) args) = args
  /\ (strchr p "%" = None -> unescape p = p).
Proof.
  intros Hesc. unfold match_one, match_one_count.
  rewrite m1_loop_escapes by (assumption || lia). simpl.
  rewrite drop_0, bool_decide_eq_true.
  split; [split; congruence|]. split; [reflexivity|].
  intros H. now apply unescape_plain.
Qed.


(** *** The string conversion *)

Lemma field_width_range digits : INT_MIN <= field_width digits <= INT_MAX.
Proof.
  destruct digits; simpl; [unfold INT_MIN, INT_MAX; lia | apply CintFacts.to_int_range].
Qed.

Lemma decimal_nonneg digits : forallb isdigit digits = true -> 0 <= decimal digits.
Proof.
  unfold decimal. intros Hd.
  assert (H : forall acc, 0 <= acc ->
            0 <= fold_left (fun a c => a * 10 + (code c - 48)) digits acc);
    [|apply H; lia].
  induction digits as [|d ds IH]; simpl; intros acc Hacc; [assumption|].
  simpl in Hd. apply andb_true_iff in Hd as [Hd0 Hds].
  destruct (isdigit_digit_of d Hd0) as [_ Hv].
  apply IH; [assumption | lia].
Qed.

(** A width that fits an [int] is the value of [len]. *)
Lemma field_width_decimal digits :
  digits <> [] -> decimal digits <= INT_MAX -> forallb isdigit digits = true ->
  field_width digits = decimal digits.
Proof.
  intros Hne Hle Hd. pose proof (decimal_nonneg digits Hd).
  destruct digits; [contradiction|]. unfold field_width.
  unfold INT_MAX, ULONG_MAX in *.
  rewrite Z.min_l by lia. apply CintFacts.to_int_id. unfold INT_MIN, INT_MAX. lia.
Qed.

Lemma m1_conversion_string subj cur rest w args argc :
  (argc < MAX_OPT_ARGS)%nat ->
  INT_MIN <= w <= INT_MAX ->
  Z.of_nat (length subj) <= INT_MAX ->
  let remaining := (length subj - cur)%nat in
  let n := if w <? 0 then remaining else Nat.min remaining (Z.to_nat w) in
  m1_conversion MAX_OPT_ARGS subj cur ("s"%char :: rest) w args argc
  = if decide (remaining = 0%nat)
    then m1_return false (set_from args argc cur) argc
    else m1_continue (cur + n) rest
           (set_to (set_from args argc cur) argc (cur + n)) (S argc).
Proof.
  intros Hc Hw Hlen remaining n. unfold m1_conversion.
  rewrite bool_decide_eq_false_2 by lia. simpl.
  rewrite length_drop. fold remaining.
  destruct (decide (remaining = 0%nat)) as [Hz|Hnz].
  { rewrite Hz. reflexivity. }
  destruct (Z.eqb_spec (Z.of_nat remaining) 0); [lia|].
  assert (Hrem : 0 < Z.of_nat remaining <= INT_MAX) by (unfold remaining; lia).
  match goal with
  | |- context [Z.to_nat (Z.of_nat cur + ?len)] =>
      assert (Hn : Z.to_nat (Z.of_nat cur + len) = (cur + n)%nat)
  end.
  { unfold n, INT_MIN, INT_MAX in *.
    destruct (Z.eqb_spec w (-1)) as [->|Hw1]; simpl.
    - rewrite CintFacts.to_int_id by (unfold INT_MIN, INT_MAX; lia). lia.
    - destruct (Z.ltb_spec w 0) as [Hneg|Hpos].
      + rewrite CintFacts.to_size_t_neg by (unfold INT_MIN; lia).
        destruct (Z.ltb_spec (Z.of_nat remaining) (w + 2 ^ 64)); [|lia].
        rewrite CintFacts.to_int_id by (unfold INT_MIN, INT_MAX; lia). lia.
      + rewrite CintFacts.to_size_t_id by (unfold SIZE_MAX; lia).
        destruct (Z.ltb_spec (Z.of_nat remaining) w).
        * rewrite CintFacts.to_int_id by (unfold INT_MIN, INT_MAX; lia). lia.
        * lia. }
  rewrite Hn, set_span. reflexivity.
Qed.

Lemma drop_past_marker (lit : cstring) c q : drop (S (length lit)) (lit ++ c :: q) = q.
Proof.
  rewrite (drop_app_ge lit) by lia.
  replace (S (length lit) - length lit)%nat with 1%nat by lia. reflexivity.
Qed.

(** One turn of the loop on [lit%<digits>s...], with the literal
    matching at the cursor. *)
Lemma m1_body_string subj s lit digits rest args argc :
  strchr lit "%" = None ->
  take (length lit) (drop s subj) = lit ->
  forallb isdigit digits = true ->
  (argc < MAX_OPT_ARGS)%nat ->
  Z.of_nat (length subj) <= INT_MAX ->
  let cur := (s + length lit)%nat in
  let remaining := (length subj - cur)%nat in
  let w := field_width digits in
  let n := if w <? 0 then remaining else Nat.min remaining (Z.to_nat w) in
  m1_body MAX_OPT_ARGS subj s (lit ++ "%"%char :: digits ++ "s"%char :: rest)
    args argc
  = if decide (remaining = 0%nat)
    then m1_return false (set_from args argc cur) argc
    else m1_continue (cur + n) rest
           (set_to (set_from args argc cur) argc (cur + n)) (S argc).
Proof.
  intros Hlit Hm Hd Hc Hlen cur remaining w n.
  unfold m1_body. rewrite strchr_app_first by assumption.
  unfold strncmp_eq. rewrite take_app_length, Hm.
  rewrite bool_decide_eq_true_2 by reflexivity. simpl negb. cbv iota.
  rewrite drop_past_marker. fold cur.
  pose proof (field_width_range digits) as Hw. fold w in Hw.
  destruct digits as [|d ds].
  - simpl. now apply m1_conversion_string.
  - assert (Hd0 : isdigit d = true) by (simpl in Hd; now apply andb_true_iff in Hd).
    change (deref ((d :: ds) ++ "s"%char :: rest)) with d. rewrite Hd0.
    rewrite strtoul_digits by (assumption || reflexivity).
    change (S (length ds)) with (length (d :: ds)).
    rewrite (drop_app_length (d :: ds)).
    now apply m1_conversion_string.
Qed.


(** The string conversion in terms of the [int] that [len] holds.  In a
    turn of the loop of [match_one] on [lit%<digits>s...], with the
    literal matching at the cursor and room in [args], the conversion
    fails exactly when nothing of the subject remains; otherwise the
    loop goes on behind a span that starts at the cursor and has the
    length min(remaining, len) for a [len] that is not negative, all
    that remains otherwise.  For a width of at most INT_MAX, [len] is
    the width. *)
Theorem match_one_string_placeholder (subj : cstring) (s : nat)
    (lit digits rest : cstring) (args : args_t) (argc : nat) :
  strchr lit "%" = None ->
  take (length lit) (drop s subj) = lit ->
  forallb isdigit digits = true ->
  (argc < MAX_OPT_ARGS)%nat ->
  Z.of_nat (length subj) <= INT_MAX ->
  let cur := (s + length lit)%nat in
  let remaining := (length subj - cur)%nat in
  let w := field_width digits in
  let n := if w <? 0 then remaining else Nat.min remaining (Z.to_nat w) in
  let o := m1_body MAX_OPT_ARGS subj s
             (lit ++ "%"%char :: digits ++ "s"%char :: rest) args argc in
  (remaining = 0%nat <-> exists a, o = m1_return false a argc)
  /\ (remaining <> 0%nat ->
      exists a, o = m1_continue (cur + n) rest a (S argc)
                /\ a argc = Substring cur (cur + n)
                /\ forall i, i <> argc -> a i = args i)
  /\ (n <= remaining)%nat
  /\ (digits = [] -> w = -1 /\ n = remaining)
  /\ (digits <> [] -> decimal digits <= INT_MAX ->
      w = decimal digits
      /\ Z.of_nat n = Z.min (Z.of_nat remaining) (decimal digits)).
Proof.
  intros Hlit Hm Hd Hc Hlen cur remaining w n o.
  pose proof (m1_body_string subj s lit digits rest args argc
                Hlit Hm Hd Hc Hlen) as Hb.
  cbv zeta in Hb. fold cur remaining w n o in Hb.
  split; [|split; [|split; [|split]]].
  - destruct (decide (remaining = 0%nat)) as [Hz|Hnz].
    + split; [eauto | trivial].
    + split; [contradiction|]. intros [a Ha]. rewrite Hb in Ha. discriminate.
  - intros Hnz. destruct (decide (remaining = 0%nat)); [contradiction|].
    eexists. split; [exact Hb|]. split; [apply set_span|].
    intros i Hi. now apply set_span_other.
  - unfold n. destruct (w <? 0); lia.
  - intros ->. unfold n, w. simpl. auto.
  - intros Hne Hle. pose proof (decimal_nonneg digits Hd) as H0.
    unfold n, w. rewrite (field_width_decimal digits Hne Hle Hd).
    split; [reflexivity|].
    destruct (Z.ltb_spec (decimal digits) 0); lia.
Qed.

(** C8. Matching "foo=%s" against "foo=bar" succeeds with the span of
    "bar" in [args[0]], and [match_strdup] of that span is a block that
    holds "bar" and its NUL.  In general the span that a string
    conversion records is materialized by [match_strdup] as exactly the
    characters it spans, followed by a NUL. *)
Theorem match_strdup_round_trip (malloc : allocator) :
  (0 < MAX_OPT_ARGS)%nat -> allocator_ok malloc ->
  (forall args,
     let r := match_one MAX_OPT_ARGS (cs "foo=bar") (Some (cs "foo=%s")) args in
     fst r = true /\ snd r 0%nat = Substring 4 7
     /\ (is_Some (malloc 4) ->
         match_strdup malloc (cs "foo=bar") (snd r 0%nat)
         = Some (cs "bar" ++ [NUL])))
  /\ (forall subj s lit digits rest args argc,
        strchr lit "%" = None ->
        take (length lit) (drop s subj) = lit ->
        forallb isdigit digits = true ->
        (argc < MAX_OPT_ARGS)%nat ->
        Z.of_nat (length subj) <= INT_MAX ->
        (s + length lit < length subj)%nat ->
        exists s' a,
          m1_body MAX_OPT_ARGS subj s
            (lit ++ "%"%char :: digits ++ "s"%char :: rest) args argc
          = m1_continue s' rest a (S argc)
          /\ from (a argc) = (s + length lit)%nat /\ to (a argc) = s'
          /\ (is_Some (malloc (Z.of_nat (s' - (s + length lit)) + 1)) ->
              match_strdup malloc subj (a argc)
              = Some (take (s' - (s + length lit)) (drop (s + length lit) subj)
                      ++ [NUL]))).
Proof.
  intros Hmax Hm.
  assert (Hgen : forall subj s lit digits rest args argc,
        strchr lit "%" = None ->
        take (length lit) (drop s subj) = lit ->
        forallb isdigit digits = true ->
        (argc < MAX_OPT_ARGS)%nat ->
        Z.of_nat (length subj) <= INT_MAX ->
        (s + length lit < length subj)%nat ->
        exists s' a,
          m1_body MAX_OPT_ARGS subj s
            (lit ++ "%"%char :: digits ++ "s"%char :: rest) args argc
          = m1_continue s' rest a (S argc)
          /\ from (a argc) = (s + length lit)%nat /\ to (a argc) = s'
          /\ (is_Some (malloc (Z.of_nat (s' - (s + length lit)) + 1)) ->
              match_strdup malloc subj (a argc)
              = Some (take (s' - (s + length lit)) (drop (s + length lit) subj)
                      ++ [NUL]))).
  { intros subj s lit digits rest args argc Hlit Hlm Hd Hc Hlen Hrem.
    pose proof (m1_body_string subj s lit digits rest args argc
                  Hlit Hlm Hd Hc Hlen) as Hb.
    cbv zeta in Hb.
    destruct (decide (length subj - (s + length lit) = 0)%nat); [lia|].
    eexists _, _. split; [exact Hb|].
    rewrite set_span. simpl. split; [reflexivity|]. split; [reflexivity|].
    intros [blk Hblk].
    set (len := if field_width digits <? 0 then _ else _) in *.
    assert (Hn : (len <= length subj - (s + length lit))%nat)
      by (unfold len; destruct (_ <? 0); lia).
    erewrite match_strdup_eq; [reflexivity|assumption| | |exact Hblk].
    - unfold substring_valid. simpl. lia.
    - unfold INT_MAX, SIZE_MAX in *. lia. }
  split; [|exact Hgen].
  intros args r.
  destruct (Hgen (cs "foo=bar") 0%nat (cs "foo=") [] [] args 0%nat)
    as (s' & a & Hb & Hfrom & Hto & Hdup);
    try reflexivity; try assumption; try (simpl; unfold INT_MAX; lia).
  pose proof (m1_body_string (cs "foo=bar") 0%nat (cs "foo=") [] [] args 0%nat)
    as Hb'.
  cbv zeta in Hb'. rewrite Hb in Hb'.
  specialize (Hb' eq_refl eq_refl eq_refl Hmax ltac:(simpl; unfold INT_MAX; lia)).
  simpl in Hb'. injection Hb' as -> Ha.
  assert (Hr : r = (true, a)).
  { unfold r, match_one, match_one_count.
    change (m1_loop MAX_OPT_ARGS (S (length (cs "foo=%s"))) (cs "foo=bar") 0
              (cs "foo=%s") args 0)
      with (match m1_body MAX_OPT_ARGS (cs "foo=bar") 0
                    (cs "foo=" ++ "%"%char :: [] ++ "s"%char :: []) args 0 with
            | m1_return r0 args' argc' => Some (r0, args', argc')
            | m1_continue s' p' args' argc' =>
                m1_loop MAX_OPT_ARGS (length (cs "foo=%s")) (cs "foo=bar")
                  s' p' args' argc'
            end).
    rewrite Hb. reflexivity. }
  rewrite Hr. simpl fst. simpl snd.
  split; [reflexivity|]. split.
  - destruct (a 0%nat) as [f t]. simpl in *. congruence.
  - simpl in Hfrom, Hto, Hdup. exact Hdup.
Qed.

End MatchOne.

(** *** The statements at concrete inputs *)

Lemma test_malloc_ok : allocator_ok test_malloc.
Proof.
  intros n blk. unfold test_malloc.
  destruct (Z.ltb_spec n 0); [discriminate|].
  intros [= <-]. rewrite repeat_length. lia.
Qed.



Lemma match_one_string_placeholder_witness :
  exists a,
    m1_body 3 (cs "foo=bar") 0 (cs "foo=%2s") blank 0
    = m1_continue 6 [] a 1
    /\ a 0%nat = Substring 4 6
    /\ forall i, i <> 0%nat -> a i = blank i.
Proof.
  apply (proj1 (proj2 (match_one_string_placeholder 3 (cs "foo=bar") 0
                         (cs "foo=") (cs "2") [] blank 0
                         eq_refl eq_refl eq_refl
                         ltac:(lia) ltac:(vm_compute; discriminate)))).
  vm_compute. discriminate.
Defined.

(** C6, as stated, fails on an escape: "a%%" has no placeholder, yet
    [match_one] rejects the subject "a%%" and accepts "a%". *)
Lemma match_one_literal_counterexample :
  escapes_only (cs "a%%") = true
  /\ ~ (fst (match_one 3 (cs "a%%") (Some (cs "a%%")) blank) = true
        <-> cs "a%%" = cs "a%%")
  /\ fst (match_one 3 (cs "a%") (Some (cs "a%%")) blank) = true.
Proof.
  split; [reflexivity|]. split; [|reflexivity].
  intros [_ H]. specialize (H eq_refl). vm_compute in H. discriminate.
Qed.

Lemma match_one_literal_witness :
  (fst (match_one 3 (cs "a%") (Some (cs "a%%")) blank) = true
   <-> cs "a%" = unescape (cs "a%%"))
  /\ snd (match_one 3 (cs "a%") (Some (cs "a%%")) blank) = blank
  /\ (strchr (cs "a%%") "%" = None -> unescape (cs "a%%") = cs "a%%").
Proof.
  apply (match_one_literal 3 (cs "a%%") (cs "a%") blank). reflexivity.
Defined.

Lemma match_strlcpy_truncates_witness :
  fst (match_strlcpy (repeat "x"%char 4) (cs "0123456789") (Substring 0 10) 4)
  = 10
  /\ snd (match_strlcpy (repeat "x"%char 4) (cs "0123456789") (Substring 0 10) 4)
     = cs "012" ++ [NUL].
Proof.
  destruct (match_strlcpy_truncates (repeat "x"%char 4) (cs "0123456789")
              (Substring 0 10) 4) as (H1 & _ & H3).
  - unfold substring_valid. simpl. lia.
  - vm_compute. discriminate.
  - unfold SIZE_MAX. lia.
  - simpl. lia.
  - split; [exact H1 | apply H3; discriminate].
Defined.

Lemma match_number_result_witness :
  match_number test_malloc (cs "max=2147483648") (Substring 4 14) 7 0
  = (- ERANGE, 7)
  /\ (match_number test_malloc (cs "max=2147483647") (Substring 4 14) 7 0
      = (0, 2147483647)
      <-> snd (strtol (cs "2147483647") 0) <> O
          /\ INT_MIN <= 2147483647 <= INT_MAX).
Proof.
  assert (Hnul : forall t : cstring,
            forallb (fun c => negb (Ascii.eqb c NUL)) t = true -> NUL ∉ t).
  { intros t Ht Hin. apply list_elem_of_In in Hin.
    rewrite forallb_forall in Ht. specialize (Ht _ Hin).
    now rewrite Ascii.eqb_refl in Ht. }
  split.
  - destruct (match_number_result test_malloc (cs "max=2147483648")
                (Substring 4 14) 7 0 test_malloc_ok) as (_ & H & _).
    + unfold substring_valid. simpl. lia.
    + vm_compute. reflexivity.
    + now apply Hnul.
    + destruct H as (_ & _ & _ & H); [eexists; reflexivity|].
      apply H; [vm_compute; discriminate | right; vm_compute; reflexivity].
  - destruct (match_number_result test_malloc (cs "max=2147483647")
                (Substring 4 14) 7 0 test_malloc_ok) as (_ & H & _).
    + unfold substring_valid. simpl. lia.
    + vm_compute. reflexivity.
    + now apply Hnul.
    + destruct H as (H & _); [eexists; reflexivity|]. exact H.
Defined.

Lemma match_number_error_keeps_result_witness :
  snd (match_number test_malloc (cs "uid=zz") (Substring 4 6) 7 0) = 7.
Proof.
  apply (proj1 (match_number_error_keeps_result test_malloc (cs "uid=zz")
                  (Substring 4 6) 7 0)).
  vm_compute. discriminate.
Defined.

Lemma match_strdup_round_trip_witness :
  fst (match_one 3 (cs "foo=bar") (Some (cs "foo=%s")) blank) = true
  /\ snd (match_one 3 (cs "foo=bar") (Some (cs "foo=%s")) blank) 0%nat
     = Substring 4 7
  /\ match_strdup test_malloc (cs "foo=bar")
       (snd (match_one 3 (cs "foo=bar") (Some (cs "foo=%s")) blank) 0%nat)
     = Some (cs "bar" ++ [NUL]).
Proof.
  destruct (proj1 (match_strdup_round_trip 3 test_malloc ltac:(lia) test_malloc_ok)
              blank) as (H1 & H2 & H3).
  split; [exact H1|]. split; [exact H2|].
  apply H3. eexists. reflexivity.
Defined.

(** The scenario of the specification: "uid=1000" on the mount table is
    the third entry, its span is "1000", and [match_int] reads 1000. *)
Example mount_uid :
  exists args,
    match_token 3 (cs "uid=1000") mount_table blank = Some (3, args)
    /\ args 0%nat = Substring 4 8
    /\ substring_text (cs "uid=1000") (args 0%nat) = cs "1000"
    /\ match_int test_malloc (cs "uid=1000") (args 0%nat) 0 = (0, 1000).
Proof. eexists. split; [reflexivity|]. repeat split. Qed.

(** C3. The width 4294967296 is larger than what remains of "abc", and
    the conversion does not clamp it to the three characters that
    remain: [len] is an [int], the value of [strtoul] is converted to
    it, and the width is held as 0.  The span recorded is empty, and
    the pattern "%4294967296sabc" matches "abc" with an empty string,
    where the width 5 records the three characters. *)
Theorem match_one_width_truncated :
  decimal (cs "4294967296") = 4294967296
  /\ field_width (cs "4294967296") = 0
  /\ (exists a,
        m1_body 3 (cs "abc") 0 (cs "%4294967296s") blank 0
        = m1_continue 0 [] a 1
        /\ a 0%nat = Substring 0 0)
  /\ fst (match_one 3 (cs "abc") (Some (cs "%4294967296sabc")) blank) = true
  /\ snd (match_one 3 (cs "abc") (Some (cs "%4294967296sabc")) blank) 0%nat
     = Substring 0 0
  /\ snd (match_one 3 (cs "abc") (Some (cs "%5s")) blank) 0%nat
     = Substring 0 3.
Proof.
  split; [reflexivity|]. split; [reflexivity|].
  split; [eexists; split; reflexivity|].
  repeat split; reflexivity.
Qed.

(** The conversion of the width to [int]: on LP64 a width of 2^32 is
    held as 0 and 2^32 - 1 as -1, the mark of no width. *)
Remark field_width_wraps :
  field_width (cs "4294967296") = 0 /\ field_width (cs "4294967295") = -1
  /\ field_width (cs "12") = 12.
Proof. repeat split; reflexivity. Qed.

End ParserFacts.

(** * Further properties of the code *)

(** ** The C library: bounds and runs of digits *)

Module LibcMore.
Import Cint Libc LibcFacts.

Lemma scan_digits_le base : forall l acc,
  (snd (scan_digits base l acc) <= length l)%nat.
Proof.
  induction l as [|c l IH]; intros acc; simpl; [lia|].
  destruct (digit_of c) as [d|]; simpl; [|lia].
  destruct (d <? base); simpl; [|lia].
  specialize (IH (acc * base + d)).
  destruct (scan_digits base l (acc * base + d)). simpl in *. lia.
Qed.

Lemma skip_space_le l : (skip_space l <= length l)%nat.
Proof.
  induction l as [|c l IH]; simpl; [lia|]. destruct (isspace c); simpl; lia.
Qed.

Lemma deref_nonempty (l : cstring) c : deref l = c -> c <> NUL -> (0 < length l)%nat.
Proof. destruct l; simpl; [congruence | lia]. Qed.

Lemma is_hex_digit_NUL : is_hex_digit NUL = false.
Proof. reflexivity. Qed.

(** [*endptr] never passes the end of the string. *)
Lemma strto_scan_le nptr base :
  (snd (strto_scan nptr base) <= length nptr)%nat.
Proof.
  unfold strto_scan.
  pose proof (skip_space_le nptr) as Hws.
  set (ws := skip_space nptr) in *. set (l := drop ws nptr).
  assert (Hl : length l = (length nptr - ws)%nat) by apply length_drop.
  set (sgn := if Ascii.eqb (deref l) "-" then (true, 1%nat)
              else if Ascii.eqb (deref l) "+" then (false, 1%nat)
              else (false, 0%nat)).
  assert (Hsg : (snd sgn <= length l)%nat).
  { unfold sgn.
    destruct (Ascii.eqb_spec (deref l) "-") as [H|_];
      [apply deref_nonempty in H; [simpl; lia | discriminate]|].
    destruct (Ascii.eqb_spec (deref l) "+") as [H|_];
      [apply deref_nonempty in H; [simpl; lia | discriminate]|].
    simpl. lia. }
  destruct sgn as [neg sg]. simpl in Hsg.
  set (l2 := drop sg l).
  assert (Hl2 : length l2 = (length l - sg)%nat) by apply length_drop.
  set (has_0x := _ && _ && _ && _).
  set (bp := if has_0x then (16, 2%nat) else _).
  assert (Hpre : (snd bp <= length l2)%nat).
  { unfold bp. destruct has_0x eqn:Hx.
    - unfold has_0x in Hx. apply andb_true_iff in Hx as [_ Hx]. simpl.
      destruct (drop 2 l2) as [|c l3] eqn:Hd; [simpl in Hx; discriminate|].
      assert (length (drop 2 l2) = (length l2 - 2)%nat) by apply length_drop.
      rewrite Hd in H. simpl in H. lia.
    - destruct (base =? 0); simpl; lia. }
  destruct bp as [b pre]. simpl in Hpre.
  pose proof (scan_digits_le b (drop pre l2) 0) as Hn.
  rewrite length_drop in Hn.
  destruct (scan_digits b (drop pre l2) 0) as [v n]. simpl in Hn.
  destruct n; simpl; lia.
Qed.

Lemma strtol_le nptr base : (snd (strtol nptr base) <= length nptr)%nat.
Proof.
  unfold strtol. pose proof (strto_scan_le nptr base).
  destruct (strto_scan nptr base) as [[neg v] n]. exact H.
Qed.

Lemma strtoul_le nptr base : (snd (strtoul nptr base) <= length nptr)%nat.
Proof.
  unfold strtoul. pose proof (strto_scan_le nptr base).
  destruct (strto_scan nptr base) as [[neg v] n]. exact H.
Qed.

(** A run of digits of [base] up to the end of the string is scanned
    whole. *)
Lemma scan_digits_run base ds : forall acc,
  digits_of_base base ds = true ->
  scan_digits base ds acc
  = (fold_left (fun a c => a * base + default 0 (digit_of c)) ds acc, length ds).
Proof.
  induction ds as [|c ds IH]; intros acc Hd; simpl; [reflexivity|].
  simpl in Hd. apply andb_true_iff in Hd as [Hc Hd].
  destruct (digit_of c) as [d|]; [|discriminate]. rewrite Hc.
  now rewrite IH.
Qed.

Lemma digit_not_special c d :
  digit_of c = Some d ->
  isspace c = false /\ Ascii.eqb c "-" = false /\ Ascii.eqb c "+" = false
  /\ c <> NUL.
Proof.
  intros H.
  assert (Hc : 48 <= code c).
  { unfold digit_of in H. cbv zeta in H.
    destruct ((48 <=? code c) && (code c <=? 57)) eqn:H1;
      [apply andb_true_iff in H1; lia|].
    destruct ((97 <=? code c) && (code c <=? 122)) eqn:H2;
      [apply andb_true_iff in H2; lia|].
    destruct ((65 <=? code c) && (code c <=? 90)) eqn:H3;
      [apply andb_true_iff in H3; lia | discriminate]. }
  repeat split.
  - unfold isspace. lia.
  - destruct (Ascii.eqb_spec c "-") as [->|]; [vm_compute in Hc; now destruct Hc | reflexivity].
  - destruct (Ascii.eqb_spec c "+") as [->|]; [vm_compute in Hc; now destruct Hc | reflexivity].
  - intros ->. vm_compute in Hc. now destruct Hc.
Qed.

Lemma digits_value_nonneg base ds :
  0 <= base -> digits_of_base base ds = true -> 0 <= digits_value base ds.
Proof.
  intros Hb Hd. unfold digits_value.
  assert (H : forall acc, 0 <= acc ->
            0 <= fold_left (fun a c => a * base + default 0 (digit_of c)) ds acc);
    [|apply H; lia].
  induction ds as [|c ds IH]; simpl; intros acc Hacc; [assumption|].
  simpl in Hd. apply andb_true_iff in Hd as [Hc Hd].
  apply IH; [assumption|].
  destruct (digit_of c) as [d|] eqn:Hdc; [|discriminate]. simpl.
  assert (0 <= d).
  { unfold digit_of in Hdc. cbv zeta in Hdc.
    destruct ((48 <=? code c) && (code c <=? 57)) eqn:H1;
      [apply andb_true_iff in H1; injection Hdc as <-; lia|].
    destruct ((97 <=? code c) && (code c <=? 122)) eqn:H2;
      [apply andb_true_iff in H2; injection Hdc as <-; lia|].
    destruct ((65 <=? code c) && (code c <=? 90)) eqn:H3;
      [apply andb_true_iff in H3; injection Hdc as <-; lia | discriminate]. }
  nia.
Qed.

(** The scan of a string that is a run of digits of the base, in base
    8, 10 or 16 (no prefix), or in base 0 when the first digit is not 0
    (decimal). *)
Lemma strto_scan_digits_run base b c ds :
  (base = 8 /\ b = 8) \/ (base = 10 /\ b = 10) \/ (base = 16 /\ b = 16)
  \/ (base = 0 /\ b = 10 /\ c <> "0"%char) ->
  digits_of_base b (c :: ds) = true ->
  strto_scan (c :: ds) base
  = (false, digits_value b (c :: ds), S (length ds)).
Proof.
  intros Hbase Hd.
  pose proof (scan_digits_run b (c :: ds) 0 Hd) as Hscan.
  assert (Hc : exists d, digit_of c = Some d /\ d < b).
  { simpl in Hd. apply andb_true_iff in Hd as [Hc _].
    destruct (digit_of c) as [d|]; [|discriminate]. exists d. split; [reflexivity|lia]. }
  destruct Hc as (d & Hdc & Hdb).
  destruct (digit_not_special c d Hdc) as (Hsp & Hm & Hp & Hnul).
  unfold strto_scan. simpl skip_space. rewrite Hsp.
  rewrite drop_0. simpl deref. rewrite Hm, Hp. rewrite drop_0. simpl deref.
  rewrite !drop_0.
  assert (Hx : ((base =? 0) || (base =? 16)) && Ascii.eqb c "0"
               && (Ascii.eqb (deref ds) "x" || Ascii.eqb (deref ds) "X")
               && is_hex_digit (deref (drop 1 ds)) = false).
  { destruct (((base =? 0) || (base =? 16)) && Ascii.eqb c "0") eqn:H1;
      [|reflexivity].
    apply andb_true_iff in H1 as [Hb16 Hc0].
    simpl. destruct ds as [|e ds']; [reflexivity|]. simpl.
    assert (He : exists v, digit_of e = Some v /\ v < 16).
    { simpl in Hd. apply andb_true_iff in Hd as [_ Hd].
      apply andb_true_iff in Hd as [He _].
      destruct (digit_of e) as [v|]; [|discriminate]. exists v.
      split; [reflexivity|].
      destruct Hbase as [[-> ->]|[[-> ->]|[[-> ->]|(-> & -> & _)]]]; lia. }
    destruct He as (v & Hev & Hv).
    destruct (Ascii.eqb_spec e "x") as [->|_];
      [vm_compute in Hev; injection Hev as <-; lia|].
    destruct (Ascii.eqb_spec e "X") as [->|_];
      [vm_compute in Hev; injection Hev as <-; lia|].
    reflexivity. }
  rewrite Hx.
  assert (Hb : (if base =? 0
                then (if Ascii.eqb c "0" then 8 else 10, 0%nat)
                else (base, 0%nat)) = (b, 0%nat)).
  { destruct Hbase as [[-> ->]|[[-> ->]|[[-> ->]|(-> & -> & Hc0)]]];
      try reflexivity.
    simpl. destruct (Ascii.eqb_spec c "0"); [contradiction | reflexivity]. }
  rewrite Hb, drop_0. rewrite Hscan. reflexivity.
Qed.

Lemma strtol_digits_run base b c ds :
  (base = 8 /\ b = 8) \/ (base = 10 /\ b = 10) \/ (base = 16 /\ b = 16)
  \/ (base = 0 /\ b = 10 /\ c <> "0"%char) ->
  digits_of_base b (c :: ds) = true ->
  strtol (c :: ds) base
  = (Z.min (digits_value b (c :: ds)) LONG_MAX, S (length ds)).
Proof.
  intros Hbase Hd. unfold strtol.
  now rewrite (strto_scan_digits_run base b c ds Hbase Hd).
Qed.

Lemma strtoul_digits_run base b c ds :
  (base = 8 /\ b = 8) \/ (base = 10 /\ b = 10) \/ (base = 16 /\ b = 16)
  \/ (base = 0 /\ b = 10 /\ c <> "0"%char) ->
  digits_of_base b (c :: ds) = true ->
  snd (strtoul (c :: ds) base) = S (length ds).
Proof.
  intros Hbase Hd. unfold strtoul.
  now rewrite (strto_scan_digits_run base b c ds Hbase Hd).
Qed.

End LibcMore.

(** ** match_wildcard: the usual shapes of pattern *)

Module WildcardUses.
Import Wildcard WildcardFacts.

Lemma wc_literal_cons c p :
  wc_literal (c :: p) <-> c <> "?"%char /\ c <> "*"%char /\ wc_literal p.
Proof.
  unfold wc_literal. rewrite !not_elem_of_cons. intuition congruence.
Qed.

Lemma wc_literal_nil : wc_literal [].
Proof. split; apply not_elem_of_nil. Qed.

(** A run of literals takes exactly itself off the front of the subject. *)
Lemma glob_literal_app lit : forall p s,
  wc_literal lit ->
  glob (lit ++ p) s <-> exists t, s = lit ++ t /\ glob p t.
Proof.
  induction lit as [|c lit IH]; intros p s Hlit; simpl.
  - split; [eauto | now intros (t & -> & H)].
  - apply wc_literal_cons in Hlit as (Hq & Hs & Hlit). split.
    + intros H. apply glob_lit_inv in H as (t' & -> & H); [|assumption..].
      apply IH in H as (t & -> & H); [eauto | assumption].
    + intros (t & -> & H). apply glob_lit; [assumption..|].
      apply IH; eauto.
Qed.

Lemma ends_star_star_last q c :
  ends_star_star (q ++ [c]) -> c = "*"%char.
Proof.
  intros [r Hr]. change ["*"%char; "*"%char] with (["*"%char] ++ ["*"%char]) in Hr.
  rewrite app_assoc in Hr. now apply app_inj_tail in Hr as [_ ->].
Qed.

Lemma ends_star_star_last2 q c :
  ends_star_star (q ++ [c; "*"%char]) -> c = "*"%char.
Proof.
  intros [r Hr].
  change (q ++ [c; "*"%char]) with (q ++ [c] ++ ["*"%char]) in Hr.
  change ["*"%char; "*"%char] with (["*"%char] ++ ["*"%char]) in Hr.
  rewrite !app_assoc in Hr. apply app_inj_tail in Hr as [Hr _].
  now apply app_inj_tail in Hr as [_ ->].
Qed.

Lemma wc_literal_last q c : wc_literal (q ++ [c]) -> c <> "*"%char.
Proof.
  intros [_ H] ->. apply H, elem_of_app. right. constructor.
Qed.

Lemma not_ends_nil : ~ ends_star_star [].
Proof. intros [q Hq]. now destruct q. Qed.

Lemma not_ends_one c : ~ ends_star_star [c].
Proof. intros [q Hq]. now destruct q as [|? [|? ?]]. Qed.

Lemma literal_not_ends lit : wc_literal lit -> ~ ends_star_star lit.
Proof.
  destruct lit as [|c lit _] using rev_ind; [intros _; apply not_ends_nil|].
  intros Hlit He. apply ends_star_star_last in He.
  now apply wc_literal_last in Hlit.
Qed.

Lemma literal_star_not_ends lit :
  wc_literal lit -> ~ ends_star_star (lit ++ ["*"%char]).
Proof.
  destruct lit as [|c lit _] using rev_ind; [intros _; apply not_ends_one|].
  intros Hlit He. rewrite <- app_assoc in He. simpl in He.
  apply ends_star_star_last2 in He.
  now apply wc_literal_last in Hlit.
Qed.

(** X1. Whatever the pattern, [match_wildcard] accepts a subject only
    if the whole subject matches the whole pattern. *)
Theorem match_wildcard_accepts_only_matches (pattern str : cstring) :
  match_wildcard pattern str = true -> glob pattern str.
Proof. apply match_wildcard_sound. Qed.

Lemma match_wildcard_accepts_only_matches_witness :
  glob (cs "nvme*n?") (cs "nvme10n1").
Proof.
  apply (match_wildcard_accepts_only_matches (cs "nvme*n?") (cs "nvme10n1")).
  reflexivity.
Defined.

Lemma wc_literal_check p :
  forallb (fun c => negb (Ascii.eqb c "?") && negb (Ascii.eqb c "*")) p = true ->
  wc_literal p.
Proof.
  intros H. rewrite forallb_forall in H.
  split; intros Hin; apply list_elem_of_In in Hin; apply H in Hin;
    discriminate Hin.
Qed.

(** X2. For a pattern that does not end in two stars, [match_wildcard]
    answers true exactly when the whole subject matches the whole
    pattern. *)
Theorem match_wildcard_whole_match (pattern str : cstring) :
  ~ ends_star_star pattern ->
  match_wildcard pattern str = true <-> glob pattern str.
Proof. apply match_wildcard_glob. Qed.

Lemma match_wildcard_whole_match_witness :
  match_wildcard (cs "a*b?c") (cs "axxbyc") = true
  <-> glob (cs "a*b?c") (cs "axxbyc").
Proof.
  apply (match_wildcard_whole_match (cs "a*b?c") (cs "axxbyc")).
  intros He. apply (ends_star_star_last (cs "a*b?")) in He. discriminate He.
Defined.

(** X3. A pattern without [?] and [*] is matched by itself and by
    nothing else: the comparison is of the whole strings. *)
Theorem match_wildcard_literal (pattern str : cstring) :
  wc_literal pattern ->
  match_wildcard pattern str = true <-> str = pattern.
Proof.
  intros Hlit.
  rewrite (match_wildcard_glob pattern str (literal_not_ends _ Hlit)).
  rewrite <- (app_nil_r pattern) at 1.
  rewrite (glob_literal_app pattern [] str Hlit). split.
  - intros (t & -> & H). apply glob_nil_l in H as ->. now rewrite app_nil_r.
  - intros ->. exists []. split; [now rewrite app_nil_r | constructor].
Qed.

Lemma match_wildcard_literal_witness :
  match_wildcard (cs "nvme0n1") (cs "nvme0n1") = true
  <-> cs "nvme0n1" = cs "nvme0n1".
Proof.
  apply (match_wildcard_literal (cs "nvme0n1") (cs "nvme0n1")).
  apply wc_literal_check. reflexivity.
Defined.

(** X4. A literal followed by one star matches exactly the subjects
    that start with the literal. *)
Theorem match_wildcard_prefix (lit str : cstring) :
  wc_literal lit ->
  match_wildcard (lit ++ ["*"%char]) str = true <-> exists t, str = lit ++ t.
Proof.
  intros Hlit.
  rewrite (match_wildcard_glob _ str (literal_star_not_ends _ Hlit)).
  rewrite (glob_literal_app lit _ str Hlit). split.
  - intros (t & -> & _). eauto.
  - intros (t & ->). exists t. split; [reflexivity | apply glob_trailing_star].
Qed.

Lemma match_wildcard_prefix_witness :
  match_wildcard (cs "nvme*") (cs "nvme0n1") = true
  <-> exists t, cs "nvme0n1" = cs "nvme" ++ t.
Proof.
  apply (match_wildcard_prefix (cs "nvme") (cs "nvme0n1")).
  apply wc_literal_check. reflexivity.
Defined.

(** X5. A star followed by a literal matches exactly the subjects that
    end with the literal. *)
Theorem match_wildcard_suffix (lit str : cstring) :
  wc_literal lit ->
  match_wildcard ("*"%char :: lit) str = true <-> exists t, str = t ++ lit.
Proof.
  intros Hlit.
  assert (Hne : ~ ends_star_star ("*"%char :: lit)).
  { destruct lit as [|c lit _] using rev_ind; [apply not_ends_one|].
    intros He. change ("*"%char :: lit ++ [c]) with (("*"%char :: lit) ++ [c]) in He.
    apply ends_star_star_last in He. now apply wc_literal_last in Hlit. }
  rewrite (match_wildcard_glob _ str Hne), glob_star_inv. split.
  - intros (k & H). rewrite <- (app_nil_r lit) in H.
    apply glob_literal_app in H as (t & Hd & H); [|assumption].
    apply glob_nil_l in H as ->. rewrite app_nil_r in Hd.
    exists (take k str). now rewrite <- Hd, take_drop.
  - intros (t & ->). exists (length t). rewrite drop_app_length.
    rewrite <- (app_nil_r lit) at 1. apply glob_literal_app; [assumption|].
    exists []. split; [now rewrite app_nil_r | constructor].
Qed.

Lemma match_wildcard_suffix_witness :
  match_wildcard (cs "*n1") (cs "nvme0n1") = true
  <-> exists t, cs "nvme0n1" = t ++ cs "n1".
Proof.
  apply (match_wildcard_suffix (cs "n1") (cs "nvme0n1")).
  apply wc_literal_check. reflexivity.
Defined.

(** X6. A non-empty literal between two stars matches exactly the
    subjects that contain the literal. *)
Theorem match_wildcard_contains (lit str : cstring) :
  wc_literal lit -> lit <> [] ->
  match_wildcard ("*"%char :: lit ++ ["*"%char]) str = true
  <-> exists a b, str = a ++ lit ++ b.
Proof.
  intros Hlit Hnil.
  assert (Hne : ~ ends_star_star ("*"%char :: lit ++ ["*"%char])).
  { destruct lit as [|c lit _] using rev_ind; [contradiction|].
    intros He. rewrite <- app_assoc in He. simpl in He.
    change ("*"%char :: lit ++ [c; "*"%char])
      with (("*"%char :: lit) ++ [c; "*"%char]) in He.
    apply ends_star_star_last2 in He. now apply wc_literal_last in Hlit. }
  rewrite (match_wildcard_glob _ str Hne), glob_star_inv. split.
  - intros (k & H). apply glob_literal_app in H as (t & Hd & _); [|assumption].
    exists (take k str), t. now rewrite <- Hd, take_drop.
  - intros (a & b & ->). exists (length a). rewrite drop_app_length.
    apply glob_literal_app; [assumption|].
    exists b. split; [reflexivity | apply glob_trailing_star].
Qed.

Lemma match_wildcard_contains_witness :
  match_wildcard (cs "*me0*") (cs "nvme0n1") = true
  <-> exists a b, cs "nvme0n1" = a ++ cs "me0" ++ b.
Proof.
  apply (match_wildcard_contains (cs "me0") (cs "nvme0n1")).
  - apply wc_literal_check. reflexivity.
  - discriminate.
Defined.

(** X7. The empty subject is matched by the empty pattern and by the
    lone star, and by no other pattern, not even by two stars. *)
Theorem match_wildcard_empty_subject (pattern : cstring) :
  match_wildcard pattern [] = true <-> pattern = [] \/ pattern = ["*"%char].
Proof.
  unfold match_wildcard, wc_fuel. simpl. unfold wc_exit.
  destruct pattern as [|c q]; [intuition|].
  destruct (Ascii.eqb_spec c "*") as [->|Hc].
  - destruct q; [intuition | split; [discriminate | intros [H|H]; discriminate]].
  - split; [discriminate | intros [H|[= H]]; [discriminate | contradiction]].
Qed.

End WildcardUses.

(** ** The option parser: termination, spans, tables, numbers *)

Module ParserMore.
Import Cint Libc Parser LibcFacts LibcMore ParserFacts.

(** *** Numbers and copies *)

Lemma digits_no_nul base ds : digits_of_base base ds = true -> NUL ∉ ds.
Proof.
  intros Hd Hin. unfold digits_of_base in Hd.
  rewrite forallb_forall in Hd. apply list_elem_of_In in Hin.
  specialize (Hd _ Hin). discriminate Hd.
Qed.

(** [match_number] on a substring whose text is a run of digits. *)
Lemma match_number_digits malloc buf s result base b c ds blk :
  (base = 8 /\ b = 8) \/ (base = 10 /\ b = 10) \/ (base = 16 /\ b = 16)
  \/ (base = 0 /\ b = 10 /\ c <> "0"%char) ->
  digits_of_base b (c :: ds) = true ->
  allocator_ok malloc ->
  substring_valid buf s -> Z.of_nat (length buf) < SIZE_MAX -> NUL ∉ buf ->
  malloc (Z.of_nat (to s - from s) + 1) = Some blk ->
  substring_text buf s = c :: ds ->
  digits_value b (c :: ds) <= INT_MAX ->
  match_number malloc buf s result base = (0, digits_value b (c :: ds)).
Proof.
  intros Hbase Hd Hm Hv Hb Hnul Hblk Htext Hval.
  rewrite (match_number_eq malloc buf s result base blk) by assumption.
  rewrite Htext, (strtol_digits_run base b c ds Hbase Hd).
  assert (H0 : 0 <= digits_value b (c :: ds)).
  { apply digits_value_nonneg; [|assumption].
    destruct Hbase as [[_ ->]|[[_ ->]|[[_ ->]|(_ & -> & _)]]]; lia. }
  unfold INT_MAX, INT_MIN, LONG_MAX in *.
  rewrite Z.min_l by lia. simpl.
  destruct (Z.ltb_spec (digits_value b (c :: ds)) (- 2 ^ 31)); [lia|].
  destruct (Z.ltb_spec (2 ^ 31 - 1) (digits_value b (c :: ds))); [lia|].
  reflexivity.
Qed.

(** X14. On a substring that is a run of octal digits, [match_octal]
    returns 0 and the number the digits write in base 8, as long as it
    fits an [int]; so [match_hex] with hexadecimal digits in base 16,
    and [match_int] with decimal digits that do not start with 0. *)
Theorem match_number_reads_digits (malloc : allocator) (buf : cstring)
    (s : substring_t) (result : Z) (c : ascii) (ds : cstring) :
  allocator_ok malloc ->
  substring_valid buf s -> Z.of_nat (length buf) < SIZE_MAX -> NUL ∉ buf ->
  is_Some (malloc (Z.of_nat (to s - from s) + 1)) ->
  substring_text buf s = c :: ds ->
  (digits_of_base 8 (c :: ds) = true -> digits_value 8 (c :: ds) <= INT_MAX ->
   match_octal malloc buf s result = (0, digits_value 8 (c :: ds)))
  /\ (digits_of_base 16 (c :: ds) = true ->
      digits_value 16 (c :: ds) <= INT_MAX ->
      match_hex malloc buf s result = (0, digits_value 16 (c :: ds)))
  /\ (digits_of_base 10 (c :: ds) = true -> c <> "0"%char ->
      digits_value 10 (c :: ds) <= INT_MAX ->
      match_int malloc buf s result = (0, digits_value 10 (c :: ds))).
Proof.
  intros Hm Hv Hb Hnul [blk Hblk] Htext.
  split; [|split]; intros Hd; intros.
  - apply (match_number_digits malloc buf s result 8 8 c ds blk); auto.
  - apply (match_number_digits malloc buf s result 16 16 c ds blk); auto.
  - apply (match_number_digits malloc buf s result 0 10 c ds blk); auto.
    right. right. right. auto.
Qed.

(** X20. [match_number] reads the characters of the substring and
    nothing else: two substrings with the same text, wherever they lie
    in whatever buffers, give the same return value and the same
    number. *)
Theorem match_number_reads_only_substring (malloc : allocator)
    (buf1 buf2 : cstring) (s1 s2 : substring_t) (result base : Z) :
  allocator_ok malloc ->
  substring_valid buf1 s1 -> Z.of_nat (length buf1) < SIZE_MAX -> NUL ∉ buf1 ->
  substring_valid buf2 s2 -> Z.of_nat (length buf2) < SIZE_MAX -> NUL ∉ buf2 ->
  substring_text buf1 s1 = substring_text buf2 s2 ->
  match_number malloc buf1 s1 result base
  = match_number malloc buf2 s2 result base.
Proof.
  intros Hm Hv1 Hb1 Hn1 Hv2 Hb2 Hn2 Htext.
  assert (Hlen : (to s1 - from s1 = to s2 - from s2)%nat).
  { rewrite <- (substring_length buf1 s1 Hv1), <- (substring_length buf2 s2 Hv2).
    now rewrite Htext. }
  destruct (malloc (Z.of_nat (to s1 - from s1) + 1)) as [blk|] eqn:Hblk.
  - rewrite (match_number_eq malloc buf1 s1 result base blk) by assumption.
    rewrite Hlen in Hblk.
    rewrite (match_number_eq malloc buf2 s2 result base blk) by assumption.
    now rewrite Htext.
  - unfold match_number.
    rewrite (substring_size buf1 s1 Hv1), (substring_size buf2 s2 Hv2) by lia.
    rewrite !CintFacts.to_size_t_id
      by (unfold substring_valid in *; lia).
    rewrite <- Hlen, Hblk. reflexivity.
Qed.

(** X19. With a buffer of [size] > 0 bytes, the string [match_strlcpy]
    leaves in [dest] is the first [size - 1] characters of the
    substring at most; it is the whole substring exactly when the
    return value is below [size]; and the buffer keeps its length. *)
Theorem match_strlcpy_detects_truncation (dest : bytes) (buf : cstring)
    (src : substring_t) (size : Z) :
  substring_valid buf src -> Z.of_nat (length buf) <= SIZE_MAX ->
  NUL ∉ buf ->
  0 < size <= SIZE_MAX -> size <= Z.of_nat (length dest) ->
  let r := match_strlcpy dest buf src size in
  cstr_of (snd r)
  = take (Z.to_nat size - 1) (substring_text buf src)
  /\ (fst r < size <-> cstr_of (snd r) = substring_text buf src)
  /\ length (snd r) = length dest.
Proof.
  intros Hv Hb Hnul Hsz Hd r. unfold r.
  rewrite match_strlcpy_eq by assumption. simpl.
  pose proof (substring_length buf src Hv) as Hlen.
  set (text := substring_text buf src) in *.
  set (n := (to src - from src)%nat) in *.
  assert (Hk : take (Nat.min n (Z.to_nat size - 1)) text
               = take (Z.to_nat size - 1) text).
  { rewrite <- (firstn_all text) at 2. fold (take (length text) text).
    rewrite take_take, Hlen. f_equal. lia. }
  assert (Hc : cstr_of (take (Nat.min n (Z.to_nat size - 1)) text
                        ++ NUL :: drop (S (Nat.min n (Z.to_nat size - 1))) dest)
               = take (Z.to_nat size - 1) text).
  { rewrite cstr_of_terminated; [exact Hk|].
    intros Hin. apply subseteq_take in Hin.
    now apply (substring_no_nul buf src Hnul). }
  rewrite Hc. split; [reflexivity|]. split.
  - split.
    + intros Hlt. apply take_ge. lia.
    + intros Heq. apply (f_equal length) in Heq. rewrite length_take in Heq. lia.
  - rewrite length_app, length_take. simpl. rewrite length_drop. lia.
Qed.

Section MatchOne.
Variable MAX_OPT_ARGS : nat.

Lemma m1_loop_S fuel subj s p args argc :
  m1_loop MAX_OPT_ARGS (S fuel) subj s p args argc
  = match m1_body MAX_OPT_ARGS subj s p args argc with
    | m1_return r args' argc' => Some (r, args', argc')
    | m1_continue s' p' args' argc' =>
        m1_loop MAX_OPT_ARGS fuel subj s' p' args' argc'
    end.
Proof. reflexivity. Qed.

(** X8. [match_one] returns on every subject, pattern and array: its
    loop ends within [length p + 1] turns, and a larger budget changes
    nothing. *)
Theorem match_one_returns (s p : cstring) (args : args_t) :
  exists r a c,
    match_one MAX_OPT_ARGS s (Some p) args = (r, a)
    /\ forall k,
         m1_loop MAX_OPT_ARGS (S (length p) + k) s 0 p args 0 = Some (r, a, c).
Proof.
  destruct (m1_loop_total MAX_OPT_ARGS (S (length p)) s 0 p args 0)
    as (r & a & c & H); [lia|].
  exists r, a, c. split.
  - unfold match_one, match_one_count. now rewrite H.
  - intros k. now apply m1_loop_more.
Qed.

(** X9. What the array held before the call changes neither the
    result of [match_one] nor the spans it records. *)
Theorem match_one_ignores_args (s : cstring) (p : option cstring)
    (a1 a2 : args_t) :
  fst (match_one MAX_OPT_ARGS s p a1) = fst (match_one MAX_OPT_ARGS s p a2)
  /\ forall i, (i < length (m1_spans MAX_OPT_ARGS s p))%nat ->
       snd (match_one MAX_OPT_ARGS s p a1) i
       = snd (match_one MAX_OPT_ARGS s p a2) i.
Proof.
  destruct (match_one_blank MAX_OPT_ARGS s p a1) as [H1 S1].
  destruct (match_one_blank MAX_OPT_ARGS s p a2) as [H2 S2].
  split; [congruence|].
  intros i Hi. apply lookup_lt_is_Some_2 in Hi as [sp Hsp].
  now rewrite (S1 i sp Hsp), (S2 i sp Hsp).
Qed.


(** *** The spans of a match *)

Lemma strncmp_eq_length (p r : cstring) n :
  strncmp_eq p r n = true -> (n <= length p)%nat -> (n <= length r)%nat.
Proof.
  unfold strncmp_eq. intros H Hn. apply bool_decide_eq_true in H.
  apply (f_equal length) in H. rewrite !length_take in H. lia.
Qed.

(** A conversion that goes on has recorded a span from the cursor to
    the new cursor, inside the subject. *)
Lemma m1_conversion_span subj s p len args argc :
  (s <= length subj)%nat -> INT_MIN <= len <= INT_MAX ->
  Z.of_nat (length subj) <= INT_MAX ->
  match m1_conversion MAX_OPT_ARGS subj s p len args argc with
  | m1_continue s' _ a' c' =>
      c' = S argc /\ a' argc = Substring s s' /\ (s <= s' <= length subj)%nat
  | m1_return _ _ c' => c' = argc
  end.
Proof.
  intros Hs Hlen Hsubj.
  destruct (decide (MAX_OPT_ARGS <= argc)%nat) as [Hcap|Hcap].
  { now rewrite (proj2 (m1_conversion_argc MAX_OPT_ARGS subj s p len args argc) Hcap). }
  destruct (Ascii.eqb_spec (deref p) "s") as [Hc|Hc].
  { apply deref_cons in Hc; [|discriminate]. rewrite Hc.
    rewrite m1_conversion_string by (assumption || lia).
    destruct (decide _); [reflexivity|].
    rewrite set_span. split; [reflexivity|]. split; [reflexivity|].
    destruct (len <? 0); lia. }
  unfold m1_conversion. rewrite bool_decide_eq_false_2 by assumption.
  destruct (Ascii.eqb_spec (deref p) "s"); [contradiction|].
  assert (Hnum : forall k, (k <= length (drop s subj))%nat ->
    match m1_num s (drop 1 p) (set_from args argc s) argc k with
    | m1_continue s' _ a' c' =>
        c' = S argc /\ a' argc = Substring s s' /\ (s <= s' <= length subj)%nat
    | m1_return _ _ c' => c' = argc
    end).
  { intros k Hk. rewrite length_drop in Hk. unfold m1_num.
    rewrite !set_span. simpl. case_bool_decide; [reflexivity|].
    rewrite set_span. repeat split; lia. }
  destruct (Ascii.eqb (deref p) "d"); [apply Hnum, strtol_le|].
  destruct (Ascii.eqb (deref p) "u"); [apply Hnum, strtoul_le|].
  destruct (Ascii.eqb (deref p) "o"); [apply Hnum, strtoul_le|].
  destruct (Ascii.eqb (deref p) "x"); [apply Hnum, strtoul_le|].
  reflexivity.
Qed.

Lemma m1_body_span subj s p args argc :
  (s <= length subj)%nat -> Z.of_nat (length subj) <= INT_MAX ->
  match m1_body MAX_OPT_ARGS subj s p args argc with
  | m1_continue s' _ a' c' =>
      (s <= s' <= length subj)%nat
      /\ (c' = argc
          \/ c' = S argc
             /\ exists cur, (s <= cur <= s')%nat /\ a' argc = Substring cur s')
  | m1_return _ _ c' => c' = argc
  end.
Proof.
  intros Hs Hsubj. unfold m1_body.
  destruct (strchr p "%") as [n|] eqn:Hn; [|reflexivity].
  apply strchr_lt in Hn.
  destruct (strncmp_eq p (drop s subj) n) eqn:Hcmp; simpl; [|reflexivity].
  apply strncmp_eq_length in Hcmp; [|lia]. rewrite length_drop in Hcmp.
  assert (Hconv : forall q len, INT_MIN <= len <= INT_MAX ->
    match m1_conversion MAX_OPT_ARGS subj (s + n) q len args argc with
    | m1_continue s' _ a' c' =>
        (s <= s' <= length subj)%nat
        /\ (c' = argc
            \/ c' = S argc
               /\ exists cur, (s <= cur <= s')%nat /\ a' argc = Substring cur s')
    | m1_return _ _ c' => c' = argc
    end).
  { intros q len Hlen.
    pose proof (m1_conversion_span subj (s + n) q len args argc
                  ltac:(lia) Hlen Hsubj) as H.
    destruct (m1_conversion _ subj (s + n) q len args argc); [exact H|].
    destruct H as (-> & Ha & Hle). split; [lia|]. right.
    split; [reflexivity|]. exists (s + n)%nat. split; [lia | assumption]. }
  destruct (isdigit _).
  - destruct (strtoul _ 10) as [v k]. apply Hconv, CintFacts.to_int_range.
  - destruct (Ascii.eqb _ "%").
    + destruct (Ascii.eqb_spec (deref (drop (s + n) subj)) "%") as [Hc|Hc];
        [|reflexivity].
      apply deref_nonempty in Hc; [|discriminate].
      rewrite length_drop in Hc. split; [lia | now left].
    + apply Hconv. unfold INT_MIN, INT_MAX. lia.
Qed.

Lemma m1_inv_spans subj s a c : m1_inv subj s a c -> spans_ordered subj a c.
Proof.
  intros [Hs H] i Hi. destruct (H i Hi) as [H1 H2].
  unfold substring_valid. split; [lia | assumption].
Qed.

Lemma m1_loop_inv fuel : forall subj s p args argc r a c,
  Z.of_nat (length subj) <= INT_MAX ->
  m1_inv subj s args argc ->
  m1_loop MAX_OPT_ARGS fuel subj s p args argc = Some (r, a, c) ->
  spans_ordered subj a c.
Proof.
  induction fuel as [|fuel IH]; intros subj s p args argc r a c Hsubj Hinv;
    [discriminate|].
  rewrite m1_loop_S.
  destruct Hinv as [Hs Hinv].
  pose proof (m1_body_span subj s p args argc Hs Hsubj) as Hspan.
  pose proof (m1_body_frame MAX_OPT_ARGS subj s p args argc) as Hfr.
  destruct (m1_body _ subj s p args argc) as [r' a' c'|s' p' a' c'];
    simpl in Hfr.
  - intros [= -> -> ->]. subst c. apply (m1_inv_spans subj s).
    split; [assumption|]. intros i Hi.
    rewrite !Hfr by (left; lia). destruct (Hinv i Hi) as [H1 H2].
    split; [assumption|]. intros Hsi. rewrite Hfr by (left; lia). auto.
  - apply IH; [assumption|]. destruct Hspan as [Hle Hc].
    split; [lia|]. intros i Hi.
    destruct Hc as [->|(-> & cur & Hcur & Ha)].
    + rewrite !Hfr by (left; lia). destruct (Hinv i Hi) as [H1 H2].
      split; [lia|]. intros Hsi. rewrite Hfr by (left; lia). auto.
    + destruct (decide (i = argc)) as [->|Hne].
      * rewrite Ha. simpl. split; [lia|]. intros Hsi. lia.
      * assert (Hi' : (i < argc)%nat) by lia.
        rewrite Hfr by now left. destruct (Hinv i Hi') as [H1 H2].
        split; [lia|]. intros Hsi.
        destruct (decide (S i = argc)) as [He|He].
        -- rewrite He, Ha. simpl. lia.
        -- rewrite Hfr by now left. apply H2. lia.
Qed.

(** X10. Whether the match succeeds or not, the spans [match_one] has
    recorded are substrings of the subject (start <= end <= length) and
    follow one another from left to right without overlap. *)
Theorem match_one_spans_ordered (s : cstring) (p : option cstring)
    (args : args_t) (r : bool) (a : args_t) (c : nat) :
  Z.of_nat (length s) <= INT_MAX ->
  match_one_count MAX_OPT_ARGS s p args = Some (r, a, c) ->
  spans_ordered s a c.
Proof.
  intros Hs. destruct p as [p|]; unfold match_one_count.
  - apply m1_loop_inv; [assumption|]. split; [lia | intros i Hi; lia].
  - intros [= _ _ <-] i Hi. lia.
Qed.


(** *** Patterns of one conversion *)

Lemma take_is_prefix (lit subj : cstring) :
  take (length lit) subj = lit <-> exists v, subj = lit ++ v.
Proof.
  split.
  - intros H. exists (drop (length lit) subj). now rewrite <- H at 1; rewrite take_drop.
  - intros [v ->]. apply take_app_length.
Qed.

(** A literal that is not at the cursor ends the match. *)
Lemma m1_body_mismatch subj s lit q args argc :
  strchr lit "%" = None ->
  take (length lit) (drop s subj) <> lit ->
  m1_body MAX_OPT_ARGS subj s (lit ++ "%"%char :: q) args argc
  = m1_return false args argc.
Proof.
  intros Hlit Hne. unfold m1_body. rewrite strchr_app_first by assumption.
  unfold strncmp_eq. rewrite take_app_length.
  now rewrite bool_decide_eq_false_2 by congruence.
Qed.

Lemma m1_body_end subj s args argc :
  m1_body MAX_OPT_ARGS subj s [] args argc
  = m1_return (bool_decide (drop s subj = [])) args argc.
Proof.
  unfold m1_body, strcmp_eq. simpl. f_equal. apply bool_decide_ext.
  split; congruence.
Qed.

(** X12. The pattern [key%s] matches exactly the subjects that are the
    key followed by at least one character, and the span is everything
    after the key: a bare key is rejected. *)
Theorem match_one_key_value (lit subj : cstring) (args : args_t) :
  strchr lit "%" = None -> (0 < MAX_OPT_ARGS)%nat ->
  Z.of_nat (length subj) <= INT_MAX ->
  let r := match_one MAX_OPT_ARGS subj (Some (lit ++ cs "%s")) args in
  (fst r = true <-> exists v, v <> [] /\ subj = lit ++ v)
  /\ (fst r = true -> snd r 0%nat = Substring (length lit) (length subj)).
Proof.
  intros Hlit Hmax Hsubj r. unfold r, match_one, match_one_count.
  rewrite m1_loop_S.
  destruct (decide (take (length lit) subj = lit)) as [Hm|Hm].
  2:{ change (cs "%s") with ("%"%char :: cs "s").
      rewrite m1_body_mismatch by (rewrite ?drop_0; assumption). simpl.
      split; [|discriminate]. split; [discriminate|].
      intros (v & _ & ->). destruct Hm. apply take_app_length. }
  change (lit ++ cs "%s") with (lit ++ "%"%char :: [] ++ "s"%char :: []).
  rewrite m1_body_string by (rewrite ?drop_0; auto).
  assert (Hle : (length lit <= length subj)%nat).
  { apply (f_equal length) in Hm. rewrite length_take in Hm. lia. }
  simpl Nat.add. simpl field_width. simpl Z.ltb. cbv iota.
  destruct (decide (length subj - length lit = 0)%nat) as [Hz|Hnz]; simpl.
  - split; [|discriminate]. split; [discriminate|].
    intros (v & Hv & ->). rewrite length_app in Hz.
    destruct v; [contradiction | simpl in Hz; lia].
  - rewrite length_app. simpl length.
    replace (length lit + 2)%nat with (S (length lit + 1)) by lia.
    rewrite m1_loop_S, m1_body_end.
    replace (length lit + (length subj - length lit))%nat with (length subj)
      by lia.
    rewrite drop_all, bool_decide_eq_true_2 by reflexivity. simpl.
    rewrite set_span. split; [|reflexivity]. split; [|reflexivity].
    intros _. exists (drop (length lit) subj). split.
    + intros Hd. apply (f_equal length) in Hd. rewrite length_drop in Hd.
      simpl in Hd. lia.
    + now rewrite <- Hm at 1; rewrite take_drop.
Qed.

(** The pattern [key%d] or [key%u] on the key followed by a decimal
    number that does not start with 0. *)
Lemma m1_decimal_match lit conv c ds args :
  strchr lit "%" = None -> (0 < MAX_OPT_ARGS)%nat ->
  conv = "d"%char \/ conv = "u"%char ->
  digits_of_base 10 (c :: ds) = true -> c <> "0"%char ->
  exists a,
    match_one MAX_OPT_ARGS (lit ++ c :: ds) (Some (lit ++ ["%"%char; conv])) args
    = (true, a)
    /\ a 0%nat = Substring (length lit) (length lit + S (length ds)).
Proof.
  intros Hlit Hmax Hconv Hd Hc0.
  assert (Hk : snd (strtol (c :: ds) 0) = S (length ds)
               /\ snd (strtoul (c :: ds) 0) = S (length ds)).
  { split.
    - rewrite (strtol_digits_run 0 10 c ds); [reflexivity| |assumption].
      right. right. right. auto.
    - apply (strtoul_digits_run 0 10 c ds); [|assumption].
      right. right. right. auto. }
  destruct Hk as [Hkd Hku].
  unfold match_one, match_one_count. rewrite m1_loop_S.
  unfold m1_body at 1. rewrite strchr_app_first by assumption.
  unfold strncmp_eq. rewrite drop_0, !take_app_length.
  rewrite bool_decide_eq_true_2 by reflexivity. simpl negb. cbv iota.
  rewrite drop_past_marker. simpl deref.
  assert (Hnd : isdigit conv = false /\ Ascii.eqb conv "%" = false
                /\ Ascii.eqb conv "s" = false)
    by (destruct Hconv as [->| ->]; auto).
  destruct Hnd as (-> & -> & Hs).
  unfold m1_conversion. rewrite bool_decide_eq_false_2 by lia.
  simpl deref. rewrite Hs. simpl Nat.add. rewrite drop_app_length.
  assert (Hnum : forall k, k = S (length ds) ->
    match m1_num (length lit) (drop 1 [conv]) (set_from args 0 (length lit)) 0 k with
    | m1_return r args' argc' => Some (r, args', argc')
    | m1_continue s' p' args' argc' =>
        m1_loop MAX_OPT_ARGS (length (lit ++ ["%"%char; conv])) (lit ++ c :: ds)
          s' p' args' argc'
    end
    = Some (true, set_to (set_from args 0 (length lit)) 0
                    (length lit + S (length ds)), 1%nat)).
  { intros k ->. unfold m1_num. rewrite !set_span. simpl from. simpl to.
    rewrite bool_decide_eq_false_2 by lia.
    rewrite length_app. simpl length.
    replace (length lit + 2)%nat with (S (length lit + 1)) by lia.
    rewrite m1_loop_S. simpl drop at 1. rewrite m1_body_end.
    rewrite bool_decide_eq_true_2; [reflexivity|].
    change (c :: ds) with ([c] ++ ds). rewrite app_assoc.
    replace (length lit + S (length ds))%nat
      with (length ((lit ++ [c]) ++ ds)) by (rewrite !length_app; simpl; lia).
    apply drop_all. }
  destruct Hconv as [-> | ->].
  - simpl Ascii.eqb. cbv iota. rewrite (Hnum _ Hkd).
    eexists. split; [reflexivity | apply set_span].
  - simpl Ascii.eqb. cbv iota. rewrite (Hnum _ Hku).
    eexists. split; [reflexivity | apply set_span].
Qed.

(** X13. The pattern [key%d] or [key%u] matches the key followed by a
    decimal number without a leading 0, and the span is the number. *)
Theorem match_one_decimal (lit : cstring) (conv c : ascii) (ds : cstring)
    (args : args_t) :
  strchr lit "%" = None -> (0 < MAX_OPT_ARGS)%nat ->
  conv = "d"%char \/ conv = "u"%char ->
  digits_of_base 10 (c :: ds) = true -> c <> "0"%char ->
  exists a,
    match_one MAX_OPT_ARGS (lit ++ c :: ds) (Some (lit ++ ["%"%char; conv])) args
    = (true, a)
    /\ a 0%nat = Substring (length lit) (length lit + S (length ds))
    /\ substring_text (lit ++ c :: ds) (a 0%nat) = c :: ds.
Proof.
  intros Hlit Hmax Hconv Hd Hc0.
  destruct (m1_decimal_match lit conv c ds args Hlit Hmax Hconv Hd Hc0)
    as (a & Hm & Ha).
  exists a. split; [assumption|]. split; [assumption|].
  rewrite Ha. unfold substring_text. simpl.
  rewrite drop_app_length.
  replace (length lit + S (length ds) - length lit)%nat
    with (length (c :: ds)) by (simpl; lia).
  apply firstn_all.
Qed.


(** X15. From the option string to the number: after [key%d] or
    [key%u] has matched the key followed by a decimal number that fits
    an [int], [match_int] on the recorded span returns 0 and the
    number. *)
Theorem match_one_then_match_int (malloc : allocator) (lit : cstring)
    (conv c : ascii) (ds : cstring) (args : args_t) (result : Z) :
  strchr lit "%" = None -> (0 < MAX_OPT_ARGS)%nat ->
  conv = "d"%char \/ conv = "u"%char ->
  digits_of_base 10 (c :: ds) = true -> c <> "0"%char ->
  allocator_ok malloc -> is_Some (malloc (Z.of_nat (S (length ds)) + 1)) ->
  NUL ∉ lit -> Z.of_nat (length (lit ++ c :: ds)) < SIZE_MAX ->
  digits_value 10 (c :: ds) <= INT_MAX ->
  let subj := lit ++ c :: ds in
  let r := match_one MAX_OPT_ARGS subj (Some (lit ++ ["%"%char; conv])) args in
  fst r = true
  /\ match_int malloc subj (snd r 0%nat) result = (0, digits_value 10 (c :: ds)).
Proof.
  intros Hlit Hmax Hconv Hd Hc0 Hm [blk Hblk] Hnul Hlen Hv subj r.
  destruct (m1_decimal_match lit conv c ds args Hlit Hmax Hconv Hd Hc0)
    as (a & Hr & Ha).
  unfold r, subj. rewrite Hr. simpl fst. simpl snd. split; [reflexivity|].
  rewrite Ha. unfold match_int.
  apply (match_number_digits malloc (lit ++ c :: ds) _ result 0 10 c ds blk);
    try assumption.
  - right. right. right. auto.
  - unfold substring_valid. simpl. rewrite length_app. simpl. lia.
  - intros Hin. apply elem_of_app in Hin as [Hin|Hin]; [contradiction|].
    now apply (digits_no_nul 10 (c :: ds)).
  - cbn [to from]. replace (length lit + S (length ds) - length lit)%nat
      with (S (length ds)) by lia. assumption.
  - unfold substring_text. simpl. rewrite drop_app_length.
    replace (length lit + S (length ds) - length lit)%nat
      with (length (c :: ds)) by (simpl; lia).
    apply firstn_all.
Qed.

(** *** match_token *)

(** X16. [match_token] leaves every cell of [args] from index
    [MAX_OPT_ARGS] on as it was, through the attempts that fail as well
    as the one that succeeds. *)
Theorem match_token_frame (s : cstring) (table : list match_token_t)
    (args : args_t) (t : Z) (a : args_t) (i : nat) :
  match_token MAX_OPT_ARGS s table args = Some (t, a) ->
  (MAX_OPT_ARGS <= i)%nat -> a i = args i.
Proof.
  revert args. induction table as [|e table IH]; intros args; [discriminate|].
  simpl. intros H Hi.
  destruct (match_one_count_total MAX_OPT_ARGS s (pattern e) args)
    as (r & a' & c & Hc).
  rewrite (match_one_eq _ _ _ _ _ _ _ Hc) in H.
  pose proof (match_one_count_frame _ _ _ _ _ _ _ i Hc Hi) as Hfr.
  destruct r.
  - injection H as _ <-. assumption.
  - rewrite (IH a' H Hi). assumption.
Qed.

(** X17. The scan of [match_token] leaves the table exactly when no
    entry of it matches the subject; with a matching entry it returns. *)
Theorem match_token_runs_off (s : cstring) (table : list match_token_t)
    (args : args_t) :
  match_token MAX_OPT_ARGS s table args = None
  <-> Forall (fun e => m1_matches MAX_OPT_ARGS s (pattern e) = false) table.
Proof.
  revert args. induction table as [|e table IH]; intros args; simpl.
  - split; [constructor | reflexivity].
  - destruct (match_one_blank MAX_OPT_ARGS s (pattern e) args) as [Hr _].
    destruct (match_one _ s (pattern e) args) as [r a]. simpl in Hr. subst r.
    destruct (m1_matches MAX_OPT_ARGS s (pattern e)) eqn:He.
    + split; [discriminate|]. intros H. inversion H; congruence.
    + rewrite IH. split; [now constructor | intros H; now inversion H].
Qed.

(** X18. Entries behind the first matching one are never looked at:
    replacing them changes neither the token nor the array. *)
Theorem match_token_ignores_rest (s : cstring) (pre : list match_token_t)
    (e : match_token_t) (post post' : list match_token_t) (args : args_t) :
  m1_matches MAX_OPT_ARGS s (pattern e) = true ->
  match_token MAX_OPT_ARGS s (pre ++ e :: post) args
  = match_token MAX_OPT_ARGS s (pre ++ e :: post') args.
Proof.
  intros He. revert args. induction pre as [|x pre IH]; intros args; simpl.
  - destruct (match_one_blank MAX_OPT_ARGS s (pattern e) args) as [Hr _].
    destruct (match_one _ s (pattern e) args) as [r a]. simpl in Hr.
    now rewrite Hr, He.
  - destruct (match_one _ s (pattern x) args) as [r a].
    destruct r; [reflexivity | apply IH].
Qed.

End MatchOne.


(** *** The statements at concrete inputs *)

Lemma no_nul_check (t : cstring) :
  forallb (fun c => negb (Ascii.eqb c NUL)) t = true -> NUL ∉ t.
Proof.
  intros Ht Hin. apply list_elem_of_In in Hin.
  rewrite forallb_forall in Ht. specialize (Ht _ Hin).
  now rewrite Ascii.eqb_refl in Ht.
Qed.

Lemma match_one_spans_ordered_witness :
  spans_ordered (cs "ab=12")
    (snd (match_one 3 (cs "ab=12") (Some (cs "%2s=%d")) blank)) 2.
Proof.
  apply (match_one_spans_ordered 3 (cs "ab=12") (Some (cs "%2s=%d")) blank true).
  - vm_compute. discriminate.
  - reflexivity.
Defined.

Lemma match_one_key_value_witness :
  (fst (match_one 3 (cs "nqn=") (Some (cs "nqn=" ++ cs "%s")) blank) = true
   <-> exists v, v <> [] /\ cs "nqn=" = cs "nqn=" ++ v)
  /\ (fst (match_one 3 (cs "nqn=") (Some (cs "nqn=" ++ cs "%s")) blank) = true ->
      snd (match_one 3 (cs "nqn=") (Some (cs "nqn=" ++ cs "%s")) blank) 0%nat
      = Substring 4 4).
Proof.
  apply (match_one_key_value 3 (cs "nqn=") (cs "nqn=") blank).
  - reflexivity.
  - lia.
  - vm_compute. discriminate.
Defined.

Lemma match_one_decimal_witness :
  exists a,
    match_one 3 (cs "port=" ++ cs "4420") (Some (cs "port=" ++ cs "%d")) blank
    = (true, a)
    /\ a 0%nat = Substring 5 9
    /\ substring_text (cs "port=" ++ cs "4420") (a 0%nat) = cs "4420".
Proof.
  apply (match_one_decimal 3 (cs "port=") "d" "4" (cs "420") blank).
  - reflexivity.
  - lia.
  - now left.
  - reflexivity.
  - discriminate.
Defined.

Lemma match_number_reads_digits_witness :
  match_octal test_malloc (cs "mode=755") (Substring 5 8) 0 = (0, 493)
  /\ match_hex test_malloc (cs "mode=755") (Substring 5 8) 0 = (0, 1877)
  /\ match_int test_malloc (cs "mode=755") (Substring 5 8) 0 = (0, 755).
Proof.
  destruct (match_number_reads_digits test_malloc (cs "mode=755")
              (Substring 5 8) 0 "7" (cs "55") test_malloc_ok)
    as (H8 & H16 & H10).
  - unfold substring_valid. simpl. lia.
  - vm_compute. reflexivity.
  - apply no_nul_check. reflexivity.
  - eexists. reflexivity.
  - reflexivity.
  - split; [|split].
    + apply H8; [reflexivity | vm_compute; discriminate].
    + apply H16; [reflexivity | vm_compute; discriminate].
    + apply H10; [reflexivity | discriminate | vm_compute; discriminate].
Defined.

Lemma match_one_then_match_int_witness :
  fst (match_one 3 (cs "port=" ++ cs "4420") (Some (cs "port=" ++ cs "%u")) blank)
  = true
  /\ match_int test_malloc (cs "port=" ++ cs "4420")
       (snd (match_one 3 (cs "port=" ++ cs "4420")
               (Some (cs "port=" ++ cs "%u")) blank) 0%nat) 0
     = (0, 4420).
Proof.
  apply (match_one_then_match_int 3 test_malloc (cs "port=") "u" "4" (cs "420")
           blank 0).
  - reflexivity.
  - lia.
  - now right.
  - reflexivity.
  - discriminate.
  - exact test_malloc_ok.
  - eexists. reflexivity.
  - apply no_nul_check. reflexivity.
  - vm_compute. reflexivity.
  - vm_compute. discriminate.
Defined.

Lemma match_token_frame_witness :
  exists a, match_token 3 (cs "uid=1000") mount_table blank = Some (3, a)
            /\ a 3%nat = blank 3%nat.
Proof.
  eexists. split; [reflexivity|].
  apply (match_token_frame 3 (cs "uid=1000") mount_table blank 3 _ 3%nat eq_refl).
  apply Nat.le_refl.
Defined.

Lemma match_token_ignores_rest_witness :
  match_token 3 (cs "rw")
    ([MatchToken 1 (Some (cs "ro"))] ++ MatchToken 2 (Some (cs "rw"))
       :: [MatchToken (-1) None]) blank
  = match_token 3 (cs "rw")
      ([MatchToken 1 (Some (cs "ro"))] ++ MatchToken 2 (Some (cs "rw")) :: [])
      blank.
Proof.
  apply (match_token_ignores_rest 3 (cs "rw") [MatchToken 1 (Some (cs "ro"))]
           (MatchToken 2 (Some (cs "rw"))) [MatchToken (-1) None] [] blank).
  reflexivity.
Defined.

Lemma match_strlcpy_detects_truncation_witness :
  let r := match_strlcpy (repeat "x"%char 4) (cs "0123456789") (Substring 0 10) 4 in
  cstr_of (snd r) = take (Z.to_nat 4 - 1) (substring_text (cs "0123456789")
                                            (Substring 0 10))
  /\ (fst r < 4 <-> cstr_of (snd r) = substring_text (cs "0123456789")
                                         (Substring 0 10))
  /\ length (snd r) = length (repeat "x"%char 4).
Proof.
  apply (match_strlcpy_detects_truncation (repeat "x"%char 4) (cs "0123456789")
           (Substring 0 10) 4).
  - unfold substring_valid. simpl. lia.
  - vm_compute. discriminate.
  - apply no_nul_check. reflexivity.
  - unfold SIZE_MAX. lia.
  - simpl. lia.
Defined.

Lemma match_number_reads_only_substring_witness :
  match_number test_malloc (cs "uid=1000,gid=5") (Substring 4 8) 0 0
  = match_number test_malloc (cs "1000") (Substring 0 4) 0 0.
Proof.
  apply (match_number_reads_only_substring test_malloc (cs "uid=1000,gid=5")
           (cs "1000") (Substring 4 8) (Substring 0 4) 0 0 test_malloc_ok).
  - unfold substring_valid. simpl. lia.
  - vm_compute. reflexivity.
  - apply no_nul_check. reflexivity.
  - unfold substring_valid. simpl. lia.
  - vm_compute. reflexivity.
  - apply no_nul_check. reflexivity.
  - reflexivity.
Defined.

End ParserMore.

(** ** Malformed placeholders *)

Module ParserMalformed.
Import Cint Libc Parser LibcFacts LibcMore ParserFacts ParserMore.

Lemma bad_literal_app lit q :
  strchr lit "%" = None ->
  bad_conversion in_literal (lit ++ "%"%char :: q)
  = bad_conversion after_percent q.
Proof.
  induction lit as [|c lit IH]; simpl; [reflexivity|].
  destruct (Ascii.eqb c "%"); [discriminate|].
  destruct (strchr lit "%"); [discriminate|]. intros _. now apply IH.
Qed.

Lemma bad_literal_plain p :
  strchr p "%" = None -> bad_conversion in_literal p = false.
Proof.
  induction p as [|c p IH]; simpl; [reflexivity|].
  destruct (Ascii.eqb c "%"); [discriminate|].
  destruct (strchr p "%"); [discriminate|]. intros _. now apply IH.
Qed.

(** A string is a run of digits followed by a string that does not
    start with a digit. *)
Lemma digit_run_split (q : cstring) :
  exists ds rest,
    q = ds ++ rest /\ forallb isdigit ds = true /\ isdigit (deref rest) = false.
Proof.
  induction q as [|c q (ds & rest & -> & Hds & Hrest)].
  - exists [], []. auto.
  - destruct (isdigit c) eqn:Hc.
    + exists (c :: ds), rest. simpl. rewrite Hc. auto.
    + exists [], (c :: ds ++ rest). auto.
Qed.

Lemma bad_width_run ds rest :
  forallb isdigit ds = true -> isdigit (deref rest) = false ->
  bad_conversion in_width (ds ++ rest) = width_end rest.
Proof.
  intros Hds Hrest. induction ds as [|d ds IH]; simpl.
  - destruct rest as [|c r]; [reflexivity|]. simpl in *. now rewrite Hrest.
  - simpl in Hds. apply andb_true_iff in Hds as [-> Hds]. now apply IH.
Qed.

Lemma is_conversion_NUL : is_conversion NUL = false.
Proof. reflexivity. Qed.

Section MatchOne.
Variable MAX_OPT_ARGS : nat.

(** The conversion returns 0, or goes on behind a conversion
    character. *)
Lemma m1_conversion_outcome subj s p len args argc :
  match m1_conversion MAX_OPT_ARGS subj s p len args argc with
  | m1_return r _ _ => r = false
  | m1_continue _ p' _ _ => is_conversion (deref p) = true /\ p' = drop 1 p
  end.
Proof.
  unfold m1_conversion, m1_num, is_conversion.
  case_bool_decide; [reflexivity|].
  destruct (Ascii.eqb (deref p) "s").
  { destruct (_ =? 0); simpl; auto. }
  destruct (Ascii.eqb (deref p) "d"); [case_bool_decide; simpl; auto|].
  destruct (Ascii.eqb (deref p) "u"); [case_bool_decide; simpl; auto|].
  destruct (Ascii.eqb (deref p) "o"); [case_bool_decide; simpl; auto|].
  destruct (Ascii.eqb (deref p) "x"); [case_bool_decide; simpl; auto|].
  reflexivity.
Qed.

Lemma width_end_outcome subj s rest len args argc :
  width_end rest = true ->
  match m1_conversion MAX_OPT_ARGS subj s rest len args argc with
  | m1_return r _ _ => r = false
  | m1_continue _ p' _ _ => bad_conversion in_literal p' = true
  end.
Proof.
  intros Hw.
  pose proof (m1_conversion_outcome subj s rest len args argc) as H.
  destruct (m1_conversion _ subj s rest len args argc); [exact H|].
  destruct H as [Hc ->]. destruct rest as [|c r]; [discriminate Hc|].
  simpl in *. now rewrite Hc in Hw.
Qed.

(** A turn of the loop on a malformed pattern returns 0 or goes on with
    a malformed rest. *)
Lemma m1_body_malformed subj s p args argc :
  bad_conversion in_literal p = true ->
  match m1_body MAX_OPT_ARGS subj s p args argc with
  | m1_return r _ _ => r = false
  | m1_continue _ p' _ _ => bad_conversion in_literal p' = true
  end.
Proof.
  intros Hbad. unfold m1_body.
  destruct (strchr p "%") as [n|] eqn:Hn.
  2:{ rewrite (bad_literal_plain p Hn) in Hbad. discriminate. }
  destruct (strchr_Some _ _ _ Hn) as [Hp Hlit].
  set (q := drop (S n) p) in *.
  rewrite Hp, (bad_literal_app _ q Hlit) in Hbad.
  destruct (negb _); [reflexivity|].
  destruct (isdigit (deref q)) eqn:Hd.
  - destruct q as [|d q']; [discriminate Hd|]. simpl in Hd.
    destruct (digit_run_split q') as (ds & rest & -> & Hds & Hrest).
    simpl in Hbad. rewrite Hd in Hbad.
    rewrite (bad_width_run ds rest Hds Hrest) in Hbad.
    change (d :: ds ++ rest) with ((d :: ds) ++ rest).
    rewrite strtoul_digits by (simpl; rewrite ?Hd; assumption).
    change (S (length ds)) with (length (d :: ds)).
    rewrite drop_app_length. now apply width_end_outcome.
  - destruct (Ascii.eqb_spec (deref q) "%") as [Hq|Hq].
    + destruct q as [|c q']; [discriminate Hq|]. simpl in Hq. subst c.
      simpl in Hbad. destruct (Ascii.eqb _ "%"); [exact Hbad | reflexivity].
    + apply width_end_outcome. destruct q as [|c q']; [reflexivity|].
      simpl in *. rewrite Hd in Hbad.
      destruct (Ascii.eqb_spec c "%"); [contradiction | exact Hbad].
Qed.

Lemma m1_loop_malformed fuel : forall subj s p args argc r a c,
  bad_conversion in_literal p = true ->
  m1_loop MAX_OPT_ARGS fuel subj s p args argc = Some (r, a, c) ->
  r = false.
Proof.
  induction fuel as [|fuel IH]; intros subj s p args argc r a c Hbad;
    [discriminate|].
  rewrite m1_loop_S.
  pose proof (m1_body_malformed subj s p args argc Hbad) as Hb.
  destruct (m1_body _ subj s p args argc) as [r' a' c'|s' p' a' c'].
  - now intros [= <- _ _].
  - now apply IH.
Qed.

(** X11. A pattern with a malformed placeholder matches no subject,
    wherever in the pattern the placeholder stands: a [%] that is not
    part of an escape [%%] and that is followed, after the digits of
    its optional width, by anything but s, d, u, o or x, the end of
    the pattern included. *)
Theorem match_one_malformed_pattern (s p : cstring) (args : args_t) :
  malformed p = true ->
  fst (match_one MAX_OPT_ARGS s (Some p) args) = false.
Proof.
  intros Hbad. unfold match_one, match_one_count.
  destruct (m1_loop MAX_OPT_ARGS (S (length p)) s 0 p args 0)
    as [[[r a] c]|] eqn:Hl; [|reflexivity].
  simpl. exact (m1_loop_malformed _ _ _ _ _ _ _ _ _ Hbad Hl).
Qed.

End MatchOne.

Lemma match_one_malformed_pattern_witness :
  fst (match_one 3 (cs "uid=5,x") (Some (cs "uid=%d,%i")) blank) = false.
Proof.
  apply (match_one_malformed_pattern 3 (cs "uid=5,x") (cs "uid=%d,%i") blank).
  reflexivity.
Defined.

(** Patterns the scan calls malformed, and patterns it does not. *)
Example malformed_examples :
  malformed (cs "uid=%d,%i") = true /\ malformed (cs "a%5%") = true
  /\ malformed (cs "rate=%") = true /\ malformed (cs "%8") = true
  /\ malformed (cs "100%%i") = false /\ malformed (cs "%3s=%x") = false.
Proof. repeat split; reflexivity. Qed.

End ParserMalformed.
